(** * Password_Generator.py: generation and strength evaluation

    A shallow embedding of [generate_password] and
    [evaluate_password_strength], together with the parts of the Python
    library they call ([string], [secrets], [math]).

    Modelling choices.
    - A Python [str] is a list of Unicode code points ([N]); [len] and
      [c in s] are then the list's length and membership.
    - The random source is a tape of raw draws; [randbelow n] reduces the
      next raw draw modulo [n].  Quantifying over every tape covers every
      outcome the operating system's source can produce.
    - [print] appends to a log kept next to the tape.
    - An exception is the [Raise] branch of [result].
    - [math.log2] is not an IEEE operation, so the entropy is carried
      exactly, as the pair [(n, x)] standing for [n * log2 x]; its
      comparisons with integer thresholds are decided on integers and shown
      equal to the comparisons of the real numbers.  Rounding of the
      entropy to binary64 is not modelled.
    - [score / max_score * 100] uses only IEEE division and multiplication
      and is computed on binary64 floats, as Python does. *)

From Stdlib Require Import ZArith NArith QArith String Ascii DecimalString.
From Stdlib Require Import Reals Lra Lia PrimFloat Uint63.
From Stdlib Require Import SpecFloat FloatOps.
From stdpp Require Import base list strings.

#[local] Open Scope Z_scope.

(** ** Python values and exceptions *)

Module Py.

(** A character is its code point; a string is the list of its
    characters. *)
Definition char : Type := N.
Definition str : Type := list char.

(** The string written as an ASCII literal. *)
Definition lit (s : string) : str := N_of_ascii <$> list_ascii_of_string s.

Inductive exn : Type :=
| ValueError (msg : string)
| IndexError (msg : string)
| ZeroDivisionError (msg : string).

Inductive result (A : Type) : Type :=
| Ok (a : A)
| Raise (e : exn).
Arguments Ok {A} a.
Arguments Raise {A} e.

#[global] Instance result_ret : MRet result := @Ok.
#[global] Instance result_bind : MBind result :=
  λ A B f m, match m with Ok a => f a | Raise e => Raise e end.

(** [len(x)] *)
Definition len {A} (x : list A) : Z := Z.of_nat (length x).

(** [c in s], for a single character [c] *)
Definition contains (s : str) (c : char) : bool := existsb (N.eqb c) s.

(** [any(c in alphabet for c in password)] *)
Definition any_in (alphabet password : str) : bool :=
  existsb (contains alphabet) password.

(** [range(n)]: empty when [n <= 0]. *)
Definition range (n : Z) : list nat := seq 0 (Z.to_nat n).

(** [reversed(range(1, n))] *)
Definition reversed_range_from_1 (n : Z) : list nat :=
  reverse (seq 1 (Z.to_nat (n - 1))).

(** [x[i]] and [x[i] = v] for a non-negative index: out of range raises. *)
Definition getitem {A} (x : list A) (i : nat) : result A :=
  match x !! i with
  | Some v => Ok v
  | None => Raise (IndexError "list index out of range")
  end.

Definition setitem {A} (x : list A) (i : nat) (v : A) : result (list A) :=
  if decide (i < length x)%nat then Ok (<[i:=v]> x)
  else Raise (IndexError "list assignment index out of range").

(** [str(z)] for an integer. *)
Definition str_of_int (z : Z) : string := NilZero.string_of_int (Z.to_int z).

(** *** The [string] module *)

Definition ascii_lowercase : str := lit "abcdefghijklmnopqrstuvwxyz".
Definition ascii_uppercase : str := lit "ABCDEFGHIJKLMNOPQRSTUVWXYZ".
Definition digits : str := lit "0123456789".
(** The 32 ASCII punctuation characters, in code order: 33-47, 58-64,
    91-96 and 123-126.  The double quote (code 34) is given by its code. *)
Definition punctuation : str :=
  lit "!" ++ [34%N] ++ lit "#$%&'()*+,-./:;<=>?@[\]^_`{|}~".

End Py.
Export Py.

(** ** Exact values of the form [n * log2 x] *)

Module Num.

(** [IntVal k] is the integer [k]; [Log2Val n x] is [n * log2 x], built
    only with [0 < x]. *)
Inductive t : Type :=
| IntVal (k : Z)
| Log2Val (n x : Z).

(** [math.log2(x)]: a domain error unless [x] is positive. *)
Definition math_log2 (x : Z) : result t :=
  if 0 <? x then Ok (Log2Val 1 x)
  else Raise (ValueError "math domain error").

(** [n * v] for an integer [n]. *)
Definition mul_int (n : Z) (v : t) : t :=
  match v with
  | IntVal k => IntVal (n * k)
  | Log2Val m x => Log2Val (n * m) x
  end.

(** The real number a value stands for. *)
Definition to_R (v : t) : R :=
  match v with
  | IntVal k => IZR k
  | Log2Val n x => (IZR n * Rlog 2 (IZR x))%R
  end.

(** [v >= T] and [v > T] for an integer [T >= 0] (and [0 <= n], [1 <= x]):
    [n * log2 x >= T] exactly when [x ^ n >= 2 ^ T]. *)
Definition geb (v : t) (T : Z) : bool :=
  match v with
  | IntVal k => T <=? k
  | Log2Val n x => 2 ^ T <=? x ^ n
  end.

Definition gtb (v : t) (T : Z) : bool :=
  match v with
  | IntVal k => T <? k
  | Log2Val n x => 2 ^ T <? x ^ n
  end.

(** The value in tenths, rounded to the nearest tenth (for a value that
    is not negative): the nearest integer to [10 * n * log2 x] is
    [(floor (log2 (x ^ (20 * n))) + 1) / 2]. *)
Definition tenths (v : t) : Z :=
  match v with
  | IntVal k => 10 * k
  | Log2Val n x => (Z.log2 (x ^ (20 * n)) + 1) / 2
  end.

(** [f"{v:.1f}"] *)
Definition format_1f (v : t) : string :=
  str_of_int (tenths v / 10) +:+ "." +:+ str_of_int (tenths v mod 10).

End Num.

(** ** [evaluate_password_strength] *)

Module Evaluator.

(** The dictionary the function returns. *)
Record report : Type := {
  score : Z;
  max_score : Z;
  percentage : float;
  strength : string;
  color : string;
  reset : string;
  feedback : list string;
  entropy : Num.t
}.

(** The two locals the function updates as it goes: [score] and
    [feedback]. *)
Definition locals : Type := (Z * list string)%type.

(** Length-based score (up to 5 points). *)
Definition length_block (password : str) (l : locals) : locals :=
  let '(score, feedback) := l in
  if 20 <=? len password then (score + 5, feedback ++ ["Excellent length"%string])
  else if 16 <=? len password then (score + 4, feedback ++ ["Very good length"%string])
  else if 12 <=? len password then (score + 3, feedback ++ ["Good length"%string])
  else if 10 <=? len password then (score + 2, feedback ++ ["Moderate length"%string])
  else if 8 <=? len password then (score + 1, feedback ++ ["Minimum acceptable length"%string])
  else (score, feedback ++ ["Password too short"%string]).

(** One of the four character-set tests. *)
Definition class_test (alphabet : str) (missing : string) (password : str)
    (l : locals) : locals :=
  let '(score, feedback) := l in
  if any_in alphabet password then (score + 1, feedback)
  else (score, feedback ++ [missing]).

(** Character set diversity (up to 4 points). *)
Definition diversity_block (password : str) (l : locals) : locals :=
  let l := class_test ascii_lowercase "Missing lowercase letters" password l in
  let l := class_test ascii_uppercase "Missing uppercase letters" password l in
  let l := class_test digits "Missing numbers" password l in
  class_test punctuation "Missing special characters" password l.

Definition char_set_size (password : str) : Z :=
  let char_set_size := 0 in
  let char_set_size :=
    if any_in ascii_lowercase password then char_set_size + 26 else char_set_size in
  let char_set_size :=
    if any_in ascii_uppercase password then char_set_size + 26 else char_set_size in
  let char_set_size :=
    if any_in digits password then char_set_size + 10 else char_set_size in
  if any_in punctuation password then char_set_size + len punctuation
  else char_set_size.

(** [len(password) * math.log2(char_set_size) if char_set_size > 0 else 0] *)
Definition entropy_of (password : str) : result Num.t :=
  let char_set_size := char_set_size password in
  if 0 <? char_set_size then
    l ← Num.math_log2 char_set_size; mret (Num.mul_int (len password) l)
  else mret (Num.IntVal 0).

Definition entropy_note (label : string) (entropy : Num.t) : string :=
  label +:+ " entropy (" +:+ Num.format_1f entropy +:+ " bits)".

(** Entropy-based score (up to 5 points). *)
Definition entropy_block (entropy : Num.t) (l : locals) : locals :=
  let '(score, feedback) := l in
  if Num.geb entropy 100 then (score + 5, feedback ++ [entropy_note "Very high" entropy])
  else if Num.geb entropy 80 then (score + 4, feedback ++ [entropy_note "High" entropy])
  else if Num.geb entropy 60 then (score + 3, feedback ++ [entropy_note "Good" entropy])
  else if Num.geb entropy 40 then (score + 2, feedback ++ [entropy_note "Moderate" entropy])
  else if Num.gtb entropy 0 then (score + 1, feedback ++ [entropy_note "Low" entropy])
  else (score, feedback).

(** The float of an integer, exact for [0 <= z < 2^53]. *)
Definition float_of_int (z : Z) : float := PrimFloat.of_uint63 (Uint63.of_Z z).

(** [a / b] on integers: true division, a binary64 float. *)
Definition truediv (a b : Z) : result float :=
  if b =? 0 then Raise (ZeroDivisionError "division by zero")
  else Ok (float_of_int a / float_of_int b)%float.

(** ANSI colour sequences: ESC is code 27. *)
Definition esc (s : string) : string := String "027"%char s.
Definition green : string := esc "[92m".
Definition yellow : string := esc "[93m".
Definition red : string := esc "[91m".

(** The descriptive rating and its colour. *)
Definition rating_block (percentage : float) : string * string :=
  if (90 <=? percentage)%float then ("Excellent"%string, green)
  else if (70 <=? percentage)%float then ("Strong"%string, green)
  else if (50 <=? percentage)%float then ("Moderate"%string, yellow)
  else if (30 <=? percentage)%float then ("Weak"%string, red)
  else ("Very Weak"%string, red).

Definition evaluate_password_strength (password : str) : result report :=
  let score := 0 in
  let feedback := [] in
  let '(score, feedback) := length_block password (score, feedback) in
  let '(score, feedback) := diversity_block password (score, feedback) in
  entropy ← entropy_of password;
  let '(score, feedback) := entropy_block entropy (score, feedback) in
  let max_score := 14 in
  q ← truediv score max_score;
  let percentage := (q * 100)%float in
  let '(strength, color) := rating_block percentage in
  let reset := esc "[0m" in
  mret {| score := score; max_score := max_score; percentage := percentage;
          strength := strength; color := color; reset := reset;
          feedback := feedback; entropy := entropy |}.

(** The points each block adds, read off an empty tally. *)
Definition length_score (password : str) : Z :=
  fst (length_block password (0, [])).
Definition diversity_score (password : str) : Z :=
  fst (diversity_block password (0, [])).
Definition entropy_score (entropy : Num.t) : Z :=
  fst (entropy_block entropy (0, [])).

(** The notes each block appends, read off in the same way. *)
Definition length_notes (password : str) : list string :=
  snd (length_block password (0, [])).
Definition diversity_notes (password : str) : list string :=
  snd (diversity_block password (0, [])).
Definition entropy_notes (entropy : Num.t) : list string :=
  snd (entropy_block entropy (0, [])).

End Evaluator.

(** ** The random source and the output log *)

Module Rand.

(** What a call can read and change: the tape of raw draws with the
    position of the next one, and the lines printed so far. *)
Record world : Type := {
  tape : nat → N;
  cursor : nat;
  stdout : list string
}.

(** A computation that may raise, over the world. *)
Definition M (A : Type) : Type := world → result A * world.

#[global] Instance M_ret : MRet M := λ A a w, (Ok a, w).
#[global] Instance M_bind : MBind M :=
  λ A B f m w,
    match m w with
    | (Ok a, w') => f a w'
    | (Raise e, w') => (Raise e, w')
    end.

Definition raise {A} (e : exn) : M A := λ w, (Raise e, w).

Definition lift {A} (r : result A) : M A := λ w, (r, w).

(** [print(line)] *)
Definition print (line : string) : M unit :=
  λ w, (Ok (), {| tape := tape w; cursor := cursor w;
                  stdout := stdout w ++ [line] |}).

(** [randbelow(n)], defined for [n > 0]: a number in [[0, n)].  The source
    of randomness redraws until the draw is below [n]; the tape holds the
    draw it keeps. *)
Definition randbelow (n : nat) : M nat :=
  λ w, (Ok (N.to_nat (tape w (cursor w)) `mod` n)%nat,
        {| tape := tape w; cursor := S (cursor w); stdout := stdout w |}).

(** [secrets.choice(seq)] *)
Definition choice {A} (seq : list A) : M A :=
  if decide (length seq = 0%nat)
  then raise (IndexError "Cannot choose from an empty sequence")
  else i ← randbelow (length seq); lift (getitem seq i).

(** [x[i], x[j] = x[j], x[i]]: the right-hand side is read first. *)
Definition swap_items {A} (x : list A) (i j : nat) : result (list A) :=
  xj ← getitem x j;
  xi ← getitem x i;
  x ← setitem x i xj;
  setitem x j xi.

(** One round of the loop of [shuffle]. *)
Definition shuffle_step {A} (x : list A) (i : nat) : M (list A) :=
  j ← randbelow (i + 1); lift (swap_items x i j).

(** A [for] loop that updates one local. *)
Fixpoint for_each {A I} (body : A → I → M A) (x : list I) (a : A) : M A :=
  match x with
  | [] => mret a
  | i :: x => a ← body a i; for_each body x a
  end.

(** [secrets.SystemRandom().shuffle(x)]:
    [for i in reversed(range(1, len(x))): j = randbelow(i + 1); swap]. *)
Definition shuffle {A} (x : list A) : M (list A) :=
  for_each shuffle_step (reversed_range_from_1 (len x)) x.

(** [[draw() for _ in x]], in order. *)
Fixpoint collect {A I} (draw : M A) (x : list I) : M (list A) :=
  match x with
  | [] => mret []
  | _ :: x => a ← draw; rest ← collect draw x; mret (a :: rest)
  end.

(** [returns m w Q]: from the world [w], [m] does not raise, and its value
    and final world satisfy [Q]. *)
Definition returns {A} (m : M A) (w : world) (Q : A → world → Prop) : Prop :=
  ∃ a w', m w = (Ok a, w') ∧ Q a w'.

(** Nothing was printed between [w] and [w']. *)
Definition quiet (w w' : world) : Prop := stdout w' = stdout w.

End Rand.

(** ** [generate_password] *)

Module Generator.
Import Rand.

(** Minimum recommended password length *)
Definition MIN_LENGTH : Z := 8.

Definition length_warning : string :=
  "Password length must be at least " +:+ str_of_int MIN_LENGTH +:+
  ". Setting length to " +:+ str_of_int MIN_LENGTH +:+ ".".

(** Ensure minimum password length. *)
Definition ensure_min_length (length : Z) : M Z :=
  if length <? MIN_LENGTH then print length_warning;; mret MIN_LENGTH
  else mret length.

(** The character sets, the optional ones empty when switched off. *)
Definition lowercase_letters : str := ascii_lowercase.
Definition uppercase_letters (use_uppercase : bool) : str :=
  if use_uppercase then ascii_uppercase else [].
Definition digits (use_numbers : bool) : str :=
  if use_numbers then Py.digits else [].
Definition symbols (use_symbols : bool) : str :=
  if use_symbols then punctuation else [].

Definition all_characters (use_uppercase use_numbers use_symbols : bool) : str :=
  lowercase_letters ++ uppercase_letters use_uppercase
    ++ digits use_numbers ++ symbols use_symbols.

(** [if flag: password.append(secrets.choice(alphabet))] *)
Definition append_choice_if (flag : bool) (alphabet password : str) : M str :=
  if flag then c ← choice alphabet; mret (password ++ [c])
  else mret password.

(** One character from each selected set, lowercase always. *)
Definition mandatory_draws (use_uppercase use_numbers use_symbols : bool) : M str :=
  let password := [] in
  c ← choice lowercase_letters;
  let password := password ++ [c] in
  password ← append_choice_if use_uppercase (uppercase_letters use_uppercase) password;
  password ← append_choice_if use_numbers (digits use_numbers) password;
  append_choice_if use_symbols (symbols use_symbols) password.

Definition remaining_length (length : Z) (password : str) : Z :=
  length - len password.

(** [password.extend(secrets.choice(all_characters) for _ in range(n))] *)
Definition fill (all_characters : str) (n : Z) (password : str) : M str :=
  rest ← collect (choice all_characters) (range n);
  mret (password ++ rest).

(** The value returned is the list of characters itself: joining a list of
    one-character strings gives the string with those characters. *)
Definition generate_password
    (length : Z) (use_uppercase use_numbers use_symbols : bool) : M str :=
  length ← ensure_min_length length;
  let all_characters := all_characters use_uppercase use_numbers use_symbols in
  if decide (all_characters = []) then
    raise (ValueError
      "At least one character set (lowercase, uppercase, digits, symbols) must be selected.")
  else
    password ← mandatory_draws use_uppercase use_numbers use_symbols;
    password ← fill all_characters (remaining_length length password) password;
    shuffle password.

End Generator.

(** ** The specification's reading of the report

    These definitions follow the words of the specification, not the code;
    the theorems below compare them with the code. *)

Module Spec.

Inductive CharacterClass : Type := lowercase | uppercase | digit | symbol.

Definition classes : list CharacterClass := [lowercase; uppercase; digit; symbol].

Definition alphabet (c : CharacterClass) : str :=
  match c with
  | lowercase => ascii_lowercase
  | uppercase => ascii_uppercase
  | digit => digits
  | symbol => punctuation
  end.

(** The password contains at least one character of the class. *)
Definition present (c : CharacterClass) (password : str) : bool :=
  bool_decide (Exists (λ ch, ch ∈ alphabet c) password).

(** A character that belongs to none of the four classes. *)
Definition unclassified (ch : char) : Prop :=
  Forall (λ c, ch ∉ alphabet c) classes.

(** 26, 26, 10 and the size of the punctuation set. *)
Definition class_size (c : CharacterClass) : Z :=
  match c with
  | lowercase => 26
  | uppercase => 26
  | digit => 10
  | symbol => Z.of_nat (length (remove_dups punctuation))
  end.

Definition activeAlphabetSize (password : str) : Z :=
  foldr Z.add 0
    ((λ c, if present c password then class_size c else 0) <$> classes).

(** [length * log2(activeAlphabetSize)] if the size is positive, else 0. *)
Definition entropyBits (password : str) : R :=
  if decide (activeAlphabetSize password = 0) then 0%R
  else (IZR (len password) * Rlog 2 (IZR (activeAlphabetSize password)))%R.

(** The password has a character of every enabled class, lowercase always. *)
Definition covers (use_uppercase use_numbers use_symbols : bool)
    (password : str) : Prop :=
  present lowercase password = true
  ∧ (use_uppercase = true → present uppercase password = true)
  ∧ (use_numbers = true → present digit password = true)
  ∧ (use_symbols = true → present symbol password = true).

Inductive Rating : Type := Excellent | Strong | Moderate | Weak | VeryWeak.

(** [score / 14 * 100] as an exact fraction. *)
Definition percentage (score : Z) : Q := (inject_Z score / 14 * 100)%Q.

Definition rating (percentage : Q) : Rating :=
  if Qle_bool 90 percentage then Excellent
  else if Qle_bool 70 percentage then Strong
  else if Qle_bool 50 percentage then Moderate
  else if Qle_bool 30 percentage then Weak
  else VeryWeak.

(** The name the code gives each rating. *)
Definition rating_name (r : Rating) : string :=
  match r with
  | Excellent => "Excellent"
  | Strong => "Strong"
  | Moderate => "Moderate"
  | Weak => "Weak"
  | VeryWeak => "Very Weak"
  end.

End Spec.

(** ** Sample inputs *)

Module Sample.

(** A world whose tape is a fixed quadratic sequence. *)
Definition world : Rand.world :=
  {| Rand.tape := λ i, N.of_nat (7 * i * i + 3 * i + 5);
     Rand.cursor := 0;
     Rand.stdout := [] |}.

(** Ten characters outside ASCII (code points 233, 8364 and 128273,
    repeated). *)
Definition non_ascii : str :=
  [233; 8364; 128273; 233; 8364; 128273; 233; 8364; 128273; 233]%N.

End Sample.

(** ** How far a call moves along the tape *)

Module Trace.
Import Rand.

(** From [w] to [w'], [k] raw draws were used, the tape is the same and
    nothing was printed. *)
Definition advanced (k : nat) (w w' : world) : Prop :=
  tape w' = tape w ∧ cursor w' = (cursor w + k)%nat ∧ stdout w' = stdout w.

End Trace.

(** ** The generation loop of [main] *)

Module Main.
Import Rand Generator.

(** The dictionary [get_user_input] returns. *)
Record preferences : Type := {
  length : Z;
  use_uppercase : bool;
  use_numbers : bool;
  use_symbols : bool;
  num_passwords : Z
}.

(** [password = generate_password(...); passwords.append(password)] *)
Definition generate_one (preferences : preferences) (passwords : list str)
    (i : nat) : M (list str) :=
  password ← generate_password (length preferences) (use_uppercase preferences)
                (use_numbers preferences) (use_symbols preferences);
  mret (passwords ++ [password]).

(** [passwords = []; for i in range(preferences['num_passwords']): ...] *)
Definition generate_passwords (preferences : preferences) : M (list str) :=
  let passwords := [] in
  for_each (generate_one preferences) (range (num_passwords preferences)) passwords.

End Main.

(** ** [display_strength_meter]

    The function only prints, and it calls [int] before its first [print]:
    the model returns the lines printed, in order, or the exception.  The
    lines are strings of code points; the bar and bullet literals are the
    three-character strings the source file holds. *)

Module Display.
Import Evaluator.

Inductive outcome (A : Type) : Type :=
| Done (a : A)
| ValueError_raised (msg : string)
| OverflowError_raised (msg : string).
Arguments Done {A} a.
Arguments ValueError_raised {A} msg.
Arguments OverflowError_raised {A} msg.

(** [int(x)] for a float: the integer towards zero; NaN and the infinities
    raise. *)
Definition int_of_float (x : float) : outcome Z :=
  match Prim2SF x with
  | S754_nan => ValueError_raised "cannot convert float NaN to integer"
  | S754_infinity _ =>
      OverflowError_raised "cannot convert float infinity to integer"
  | S754_zero _ => Done 0
  | S754_finite s m e =>
      let a := if 0 <=? e then Z.pos m * 2 ^ e else Z.pos m / 2 ^ (- e) in
      Done (if s then - a else a)
  end.

(** The nearest integer to [a / b] for [0 <= a], [0 < b], ties to even. *)
Definition round_half_even (a b : Z) : Z :=
  let k := a / b in
  let r := a mod b in
  if 2 * r <? b then k
  else if b <? 2 * r then k + 1
  else if Z.even k then k else k + 1.

(** [f"{x:.1f}"] for a float: the exact value rounded to one decimal. *)
Definition format_float_1f (x : float) : str :=
  match Prim2SF x with
  | S754_nan => lit "nan"
  | S754_infinity s => lit (if s then "-inf" else "inf")
  | S754_zero s => lit (if s then "-0.0" else "0.0")
  | S754_finite s m e =>
      let tenths :=
        if 0 <=? e then 10 * Z.pos m * 2 ^ e
        else round_half_even (10 * Z.pos m) (2 ^ (- e)) in
      lit (if s then "-" else "")
      ++ lit (str_of_int (tenths / 10)) ++ lit "."
      ++ lit (str_of_int (tenths mod 10))
  end.

(** [s * n]: empty when [n <= 0]. *)
Definition repeat_str (s : str) (n : Z) : str :=
  mjoin (replicate (Z.to_nat n) s).

(** The literals of the source, by code point. *)
Definition filled_cell : str := [8218; 241; 224]%N.
Definition empty_cell : str := [8218; 241; 235]%N.
Definition bullet : str := [8218; 196; 162]%N.
Definition newline : str := [10%N].

Definition meter_width : Z := 30.

(** [int((strength["percentage"] / 100) * meter_width)] *)
Definition filled_width (strength : report) : outcome Z :=
  int_of_float (percentage strength / float_of_int 100 * float_of_int meter_width)%float.

Definition meter (strength : report) (filled_width : Z) : str :=
  let empty_width := meter_width - filled_width in
  lit (color strength) ++ repeat_str filled_cell filled_width
  ++ lit (reset strength) ++ repeat_str empty_cell empty_width.

Definition display_strength_meter (strength : report) : outcome (list str) :=
  match filled_width strength with
  | Done filled_width =>
      let meter := meter strength filled_width in
      let printed :=
        [ newline ++ lit "Password Strength: " ++ lit (color strength)
            ++ lit (Evaluator.strength strength) ++ lit (reset strength)
            ++ lit " (" ++ lit (str_of_int (score strength)) ++ lit "/"
            ++ lit (str_of_int (max_score strength)) ++ lit ")";
          lit "[" ++ meter ++ lit "] "
            ++ format_float_1f (percentage strength) ++ lit "%" ] in
      let printed :=
        match feedback strength with
        | [] => printed
        | _ :: _ =>
            printed ++ [newline ++ lit "Feedback:"]
            ++ ((λ item, bullet ++ lit " " ++ lit item) <$> feedback strength)
        end in
      Done printed
  | ValueError_raised msg => ValueError_raised msg
  | OverflowError_raised msg => OverflowError_raised msg
  end.

End Display.

(** * The embedding on concrete inputs *)

Section Examples.
Import Rand Generator Evaluator.

Example punctuation_32_distinct : length punctuation = 32%nat ∧ NoDup punctuation.
Proof. split; [reflexivity|]. apply (bool_decide_unpack _). by vm_compute. Qed.

Example format_1f_examples :
  Num.format_1f (Num.Log2Val 8 26) = "37.6"%string
  ∧ Num.format_1f (Num.Log2Val 20 94) = "131.1"%string
  ∧ Num.format_1f (Num.Log2Val 20 32) = "100.0"%string
  ∧ Num.format_1f (Num.IntVal 0) = "0.0"%string.
Proof. by vm_compute. Qed.

Example math_log2_domain :
  Num.math_log2 0 = Raise (ValueError "math domain error")
  ∧ Num.math_log2 26 = Ok (Num.Log2Val 1 26).
Proof. by vm_compute. Qed.

(** All four classes and length 20: 5 + 4 + 5 points. *)
Example evaluate_all_classes :
  evaluate_password_strength (lit "Ab3!Ab3!Ab3!Ab3!Ab3!") =
  Ok {| score := 14; max_score := 14; percentage := 100%float;
        strength := "Excellent"; color := green; reset := esc "[0m";
        feedback := ["Excellent length"; "Very high entropy (131.1 bits)"]%string;
        entropy := Num.Log2Val 20 94 |}.
Proof. by vm_compute. Qed.

(** A space is in no class: 5 + 1 + 4 points. *)
Example evaluate_passphrase :
  evaluate_password_strength (lit "correct horse battery") =
  Ok {| score := 10; max_score := 14;
        percentage := (float_of_int 10 / float_of_int 14 * 100)%float;
        strength := "Strong"; color := green; reset := esc "[0m";
        feedback := ["Excellent length"; "Missing uppercase letters";
                     "Missing numbers"; "Missing special characters";
                     "High entropy (98.7 bits)"]%string;
        entropy := Num.Log2Val 21 26 |}.
Proof. by vm_compute. Qed.

(** Raw draws 5, 15, 39, 77 pick [f], [P], [9] and [.]. *)
Example mandatory_draws_sample :
  (mandatory_draws true true true Sample.world).1 = Ok (lit "fP9.").
Proof. by vm_compute. Qed.

(** The same draws shuffle five items: 5 mod 5 = 0, 15 mod 4 = 3,
    39 mod 3 = 0, 77 mod 2 = 1. *)
Example shuffle_sample :
  (shuffle [1; 2; 3; 4; 5] Sample.world).1 = Ok [3; 2; 5; 4; 1].
Proof. by vm_compute. Qed.

Example generate_password_sample :
  (generate_password 8 false false false Sample.world).1 = Ok (lit "nfppfzzn")
  ∧ stdout (generate_password 8 false false false Sample.world).2 = []
  ∧ stdout (generate_password 5 true true true Sample.world).2
    = ["Password length must be at least 8. Setting length to 8."%string].
Proof. by vm_compute. Qed.

(** Out of range, indexing raises; [swap_items] in range swaps. *)
Example getitem_setitem_range :
  getitem [10; 20] 2 = Raise (IndexError "list index out of range")
  ∧ setitem [10; 20] 2 30 = Raise (IndexError "list assignment index out of range")
  ∧ swap_items [10; 20; 30] 0 2 = Ok [30; 20; 10]
  ∧ (choice ([] : str) Sample.world).1
    = Raise (IndexError "Cannot choose from an empty sequence").
Proof. by vm_compute. Qed.

(** [int] of a float goes towards zero and refuses NaN and infinity. *)
Example int_of_float_examples :
  Display.int_of_float (PrimFloat.of_uint63 31 / PrimFloat.of_uint63 2)%float
  = Display.Done 15
  ∧ Display.int_of_float (- (PrimFloat.of_uint63 5 / PrimFloat.of_uint63 2))%float
    = Display.Done (-2)
  ∧ Display.int_of_float PrimFloat.nan
    = Display.ValueError_raised "cannot convert float NaN to integer"
  ∧ Display.int_of_float PrimFloat.infinity
    = Display.OverflowError_raised "cannot convert float infinity to integer".
Proof. by vm_compute. Qed.

(** One decimal, ties to even on the exact value: 0.25 gives 0.2, 0.75
    gives 0.8, 300 / 7 gives 42.9. *)
Example format_float_1f_examples :
  Display.format_float_1f (PrimFloat.of_uint63 1 / PrimFloat.of_uint63 4)%float
  = lit "0.2"
  ∧ Display.format_float_1f (PrimFloat.of_uint63 3 / PrimFloat.of_uint63 4)%float
    = lit "0.8"
  ∧ Display.format_float_1f (PrimFloat.of_uint63 300 / PrimFloat.of_uint63 7)%float
    = lit "42.9"
  ∧ Display.format_float_1f (- (PrimFloat.of_uint63 1 / PrimFloat.of_uint63 32))%float
    = lit "-0.0".
Proof. by vm_compute. Qed.

(** The meter of [Passw0rd]: 6 points of 14, 12 cells of 30. *)
Example display_sample :
  Display.display_strength_meter
    {| score := 6; max_score := 14;
       percentage := (float_of_int 6 / float_of_int 14 * 100)%float;
       strength := "Weak"; color := red; reset := esc "[0m";
       feedback := ["Minimum acceptable length"; "Missing special characters";
                    "Moderate entropy (47.6 bits)"]%string;
       entropy := Num.Log2Val 8 62 |}
  = Display.Done
      [ Display.newline ++ lit "Password Strength: " ++ lit red ++ lit "Weak"
          ++ lit (esc "[0m") ++ lit " (6/14)";
        lit "[" ++ lit red ++ Display.repeat_str Display.filled_cell 12
          ++ lit (esc "[0m") ++ Display.repeat_str Display.empty_cell 18
          ++ lit "] 42.9%";
        Display.newline ++ lit "Feedback:";
        Display.bullet ++ lit " Minimum acceptable length";
        Display.bullet ++ lit " Missing special characters";
        Display.bullet ++ lit " Moderate entropy (47.6 bits)" ].
Proof. vm_compute. reflexivity. Qed.

(** Three passwords of requested length 5: three warnings, 3 * 15 draws. *)
Example generate_passwords_sample :
  let prefs := {| Main.length := 5; Main.use_uppercase := true;
                  Main.use_numbers := false; Main.use_symbols := false;
                  Main.num_passwords := 3 |} in
  (Main.generate_passwords prefs Sample.world).1
  = Ok [lit "NfpPfzzN"; lit "ZfPBJNnZ"; lit "PNJbzHBF"]
  ∧ cursor (Main.generate_passwords prefs Sample.world).2 = 45%nat
  ∧ stdout (Main.generate_passwords prefs Sample.world).2
    = replicate 3 length_warning.
Proof. by vm_compute. Qed.

End Examples.

(** * Facts about exact values *)

Section NumFacts.
#[local] Open Scope R_scope.

Lemma ln_2_pos : 0 < ln 2.
Proof. rewrite <- ln_1. apply ln_increasing; lra. Qed.

Lemma ln_IZR_pow (x n : Z) :
  (0 < x)%Z → (0 ≤ n)%Z → ln (IZR (x ^ n)) = IZR n * ln (IZR x).
Proof.
  intros Hx Hn.
  rewrite <- (Z2Nat.id n) at 1 by lia.
  rewrite <- pow_IZR, ln_pow by (apply IZR_lt; lia).
  rewrite INR_IZR_INZ, Z2Nat.id by lia. reflexivity.
Qed.

Lemma ln_IZR_le (a b : Z) :
  (0 < a)%Z → (0 < b)%Z → (a ≤ b)%Z ↔ ln (IZR a) <= ln (IZR b).
Proof.
  intros Ha Hb. split.
  - intros Hab. destruct (Z.eq_dec a b) as [->|Hne]; [lra|].
    left. apply ln_increasing; apply IZR_lt; lia.
  - intros Hln. destruct (Z_le_gt_dec a b) as [|Hgt]; [done|].
    assert (ln (IZR b) < ln (IZR a)); [|lra].
    apply ln_increasing; apply IZR_lt; lia.
Qed.

Lemma ln_IZR_lt (a b : Z) :
  (0 < a)%Z → (0 < b)%Z → (a < b)%Z ↔ ln (IZR a) < ln (IZR b).
Proof.
  intros Ha Hb. split.
  - intros Hab. apply ln_increasing; apply IZR_lt; lia.
  - intros Hln. apply lt_IZR. apply ln_lt_inv; try (apply IZR_lt; lia). done.
Qed.

(** [n * log2 x] against [p / q], decided on integers:
    [p / q <= n * log2 x] exactly when [2 ^ p <= x ^ (q * n)]. *)
Lemma log2_ge_frac (n x p q : Z) :
  (0 ≤ n)%Z → (0 < x)%Z → (0 ≤ p)%Z → (0 < q)%Z →
  (2 ^ p ≤ x ^ (q * n))%Z ↔ IZR p / IZR q <= IZR n * Rlog 2 (IZR x).
Proof.
  intros Hn Hx Hp Hq.
  rewrite ln_IZR_le by (apply Z.pow_pos_nonneg; lia).
  rewrite !ln_IZR_pow by lia. rewrite mult_IZR. unfold Rlog.
  pose proof ln_2_pos as H2. assert (0 < IZR q) as Hq' by (apply IZR_lt; lia).
  split; intros H.
  - apply Rmult_le_reg_r with (IZR q * ln 2); [nra|].
    replace (IZR p / IZR q * (IZR q * ln 2)) with (IZR p * ln 2) by (field; lra).
    replace (IZR n * (ln (IZR x) / ln 2) * (IZR q * ln 2))
      with (IZR q * IZR n * ln (IZR x)) by (field; lra).
    done.
  - replace (IZR p * ln 2) with (IZR p / IZR q * (IZR q * ln 2)) by (field; lra).
    replace (IZR q * IZR n * ln (IZR x))
      with (IZR n * (ln (IZR x) / ln 2) * (IZR q * ln 2)) by (field; lra).
    apply Rmult_le_compat_r; [nra|done].
Qed.

Lemma log2_gt_frac (n x p q : Z) :
  (0 ≤ n)%Z → (0 < x)%Z → (0 ≤ p)%Z → (0 < q)%Z →
  (2 ^ p < x ^ (q * n))%Z ↔ IZR p / IZR q < IZR n * Rlog 2 (IZR x).
Proof.
  intros Hn Hx Hp Hq.
  rewrite ln_IZR_lt by (apply Z.pow_pos_nonneg; lia).
  rewrite !ln_IZR_pow by lia. rewrite mult_IZR. unfold Rlog.
  pose proof ln_2_pos as H2. assert (0 < IZR q) as Hq' by (apply IZR_lt; lia).
  split; intros H.
  - apply Rmult_lt_reg_r with (IZR q * ln 2); [nra|].
    replace (IZR p / IZR q * (IZR q * ln 2)) with (IZR p * ln 2) by (field; lra).
    replace (IZR n * (ln (IZR x) / ln 2) * (IZR q * ln 2))
      with (IZR q * IZR n * ln (IZR x)) by (field; lra).
    done.
  - replace (IZR p * ln 2) with (IZR p / IZR q * (IZR q * ln 2)) by (field; lra).
    replace (IZR q * IZR n * ln (IZR x))
      with (IZR n * (ln (IZR x) / ln 2) * (IZR q * ln 2)) by (field; lra).
    apply Rmult_lt_compat_r; [nra|done].
Qed.

(** The integer tests of [Num] decide the comparisons of the reals. *)
Lemma geb_Log2Val (n x T : Z) :
  (0 ≤ n)%Z → (0 < x)%Z → (0 ≤ T)%Z →
  Num.geb (Num.Log2Val n x) T = true ↔ IZR T <= Num.to_R (Num.Log2Val n x).
Proof.
  intros Hn Hx HT. cbn [Num.geb Num.to_R].
  rewrite Z.leb_le. rewrite <- (Z.mul_1_l n) at 1.
  rewrite log2_ge_frac by lia. replace (IZR T / 1) with (IZR T) by field. done.
Qed.

Lemma gtb_Log2Val (n x T : Z) :
  (0 ≤ n)%Z → (0 < x)%Z → (0 ≤ T)%Z →
  Num.gtb (Num.Log2Val n x) T = true ↔ IZR T < Num.to_R (Num.Log2Val n x).
Proof.
  intros Hn Hx HT. cbn [Num.gtb Num.to_R].
  rewrite Z.ltb_lt. rewrite <- (Z.mul_1_l n) at 1.
  rewrite log2_gt_frac by lia. replace (IZR T / 1) with (IZR T) by field. done.
Qed.

(** [tenths] is the value in tenths, rounded to the nearest integer. *)
Lemma tenths_nearest (n x : Z) :
  (0 ≤ n)%Z → (0 < x)%Z →
  Rabs (10 * Num.to_R (Num.Log2Val n x) - IZR (Num.tenths (Num.Log2Val n x)))
  <= 1 / 2.
Proof.
  intros Hn Hx. cbn [Num.to_R Num.tenths].
  set (v := IZR n * Rlog 2 (IZR x)).
  set (L := Z.log2 (x ^ (20 * n))).
  assert (0 < x ^ (20 * n))%Z as Hpos by (apply Z.pow_pos_nonneg; lia).
  pose proof (Z.log2_spec _ Hpos) as [Hlo Hhi]. fold L in Hlo, Hhi.
  pose proof (Z.log2_nonneg (x ^ (20 * n))) as HL. fold L in HL.
  assert (IZR L / 20 <= v) as Hv1.
  { apply (proj1 (log2_ge_frac n x L 20 Hn Hx HL ltac:(lia))). exact Hlo. }
  assert (v < IZR (L + 1) / 20) as Hv2.
  { apply Rnot_le_lt. intros Hle.
    apply (proj2 (log2_ge_frac n x (L + 1) 20 Hn Hx ltac:(lia) ltac:(lia))) in Hle.
    replace (Z.succ L) with (L + 1)%Z in Hhi by lia. lia. }
  pose proof (Z.div_mod (L + 1) 2 ltac:(lia)) as Hdm.
  pose proof (Z.mod_pos_bound (L + 1) 2 ltac:(lia)) as Hr.
  set (k := ((L + 1) / 2)%Z) in *. set (r := ((L + 1) mod 2)%Z) in *.
  assert (IZR (L + 1) = 2 * IZR k + IZR r) as HR.
  { rewrite Hdm at 1. by rewrite plus_IZR, mult_IZR. }
  assert (0 <= IZR r <= 1) as [Hr0 Hr1].
  { split; apply IZR_le; lia. }
  rewrite plus_IZR in HR, Hv2.
  apply Rabs_le. lra.
Qed.

End NumFacts.

(** * Facts about the evaluator *)

Section EvaluatorFacts.
Import Evaluator.

Lemma contains_elem_of (s : str) (c : char) : contains s c = true ↔ c ∈ s.
Proof.
  unfold contains. rewrite existsb_exists. split.
  - intros (x & Hx & Heq). apply N.eqb_eq in Heq. subst.
    by apply list_elem_of_In.
  - intros Hc. exists c. split; [by apply list_elem_of_In|apply N.eqb_refl].
Qed.

Lemma any_in_Exists (alphabet password : str) :
  any_in alphabet password = true ↔ Exists (λ ch, ch ∈ alphabet) password.
Proof.
  unfold any_in. rewrite existsb_exists, Exists_exists. split.
  - intros (x & Hx & Hc). exists x. split; [by apply list_elem_of_In|].
    by apply contains_elem_of.
  - intros (x & Hx & Hc). exists x. split; [by apply list_elem_of_In|].
    by apply contains_elem_of.
Qed.

Lemma any_in_present (c : Spec.CharacterClass) (password : str) :
  any_in (Spec.alphabet c) password = Spec.present c password.
Proof.
  unfold Spec.present. apply eq_true_iff_eq.
  rewrite any_in_Exists. symmetry. apply bool_decide_eq_true.
Qed.

Lemma existsb_Permutation {A} (f : A → bool) (l l' : list A) :
  l ≡ₚ l' → existsb f l = existsb f l'.
Proof.
  induction 1 as [|x l l' _ IH|x y l|l l' l'' _ IH1 _ IH2]; simpl.
  - done.
  - by rewrite IH.
  - by destruct (f x), (f y).
  - congruence.
Qed.

Lemma any_in_Permutation (alphabet p p' : str) :
  p ≡ₚ p' → any_in alphabet p = any_in alphabet p'.
Proof. apply existsb_Permutation. Qed.

Lemma len_Permutation {A} (p p' : list A) : p ≡ₚ p' → len p = len p'.
Proof. intros H. unfold len. by rewrite H. Qed.

(** A character of no class is in none of the four alphabets. *)
Lemma unclassified_not_in (ch : char) (c : Spec.CharacterClass) :
  Spec.unclassified ch → contains (Spec.alphabet c) ch = false.
Proof.
  intros H. apply not_true_is_false. rewrite contains_elem_of.
  unfold Spec.unclassified, Spec.classes in H.
  rewrite !Forall_cons in H. destruct c; tauto.
Qed.

Lemma any_in_all_unclassified (c : Spec.CharacterClass) (p : str) :
  Forall Spec.unclassified p → any_in (Spec.alphabet c) p = false.
Proof.
  induction 1 as [|ch p Hch _ IH]; [done|].
  unfold any_in in *. simpl. by rewrite unclassified_not_in, IH.
Qed.

Lemma any_in_drop_unclassified (c : Spec.CharacterClass) (p1 p2 : str) (ch : char) :
  Spec.unclassified ch →
  any_in (Spec.alphabet c) (p1 ++ ch :: p2) = any_in (Spec.alphabet c) (p1 ++ p2).
Proof.
  intros H. unfold any_in. rewrite !existsb_app. simpl.
  by rewrite unclassified_not_in.
Qed.

(** Each block adds its own points and notes to whatever came before. *)
Lemma length_block_eq (p : str) (s : Z) (f : list string) :
  length_block p (s, f) = (s + length_score p, f ++ length_notes p).
Proof.
  unfold length_score, length_notes, length_block.
  repeat case_match; simpl; f_equal; lia.
Qed.

Lemma class_test_eq (a : str) (m : string) (p : str) (s : Z) (f : list string) :
  class_test a m p (s, f) =
  (s + (if any_in a p then 1 else 0), f ++ (if any_in a p then [] else [m])).
Proof.
  unfold class_test. destruct (any_in a p); f_equal; [|lia].
  by rewrite app_nil_r.
Qed.

Lemma diversity_block_eq (p : str) (s : Z) (f : list string) :
  diversity_block p (s, f) = (s + diversity_score p, f ++ diversity_notes p).
Proof.
  unfold diversity_score, diversity_notes, diversity_block.
  rewrite !class_test_eq. simpl. f_equal; [lia|].
  by rewrite <- !app_assoc.
Qed.

Lemma entropy_block_eq (e : Num.t) (s : Z) (f : list string) :
  entropy_block e (s, f) = (s + entropy_score e, f ++ entropy_notes e).
Proof.
  unfold entropy_score, entropy_notes, entropy_block.
  repeat case_match; simpl; f_equal; try lia. by rewrite app_nil_r.
Qed.

Lemma length_score_bounds (p : str) : 0 ≤ length_score p ≤ 5.
Proof. unfold length_score, length_block. repeat case_match; simpl; lia. Qed.

Lemma diversity_score_eq (p : str) :
  diversity_score p =
  (if any_in ascii_lowercase p then 1 else 0)
  + (if any_in ascii_uppercase p then 1 else 0)
  + (if any_in digits p then 1 else 0)
  + (if any_in punctuation p then 1 else 0).
Proof.
  unfold diversity_score, diversity_block. rewrite !class_test_eq. simpl. lia.
Qed.

Lemma diversity_score_bounds (p : str) : 0 ≤ diversity_score p ≤ 4.
Proof. rewrite diversity_score_eq. repeat case_match; lia. Qed.

Lemma entropy_score_bounds (e : Num.t) : 0 ≤ entropy_score e ≤ 5.
Proof. unfold entropy_score, entropy_block. repeat case_match; simpl; lia. Qed.

(** The length score depends on the number of characters alone. *)
Lemma length_score_len (p p' : str) : len p = len p' → length_score p = length_score p'.
Proof. unfold length_score, length_block. by intros ->. Qed.

Lemma length_notes_len (p p' : str) : len p = len p' → length_notes p = length_notes p'.
Proof. unfold length_notes, length_block. by intros ->. Qed.

Lemma len_punctuation : len punctuation = 32.
Proof. reflexivity. Qed.

(** The code's [char_set_size] is the specification's active alphabet
    size: the punctuation string has 32 characters, all distinct. *)
Lemma char_set_size_active (p : str) : char_set_size p = Spec.activeAlphabetSize p.
Proof.
  unfold char_set_size, Spec.activeAlphabetSize, Spec.classes.
  pose proof (any_in_present Spec.lowercase p) as Hl.
  pose proof (any_in_present Spec.uppercase p) as Hu.
  pose proof (any_in_present Spec.digit p) as Hd.
  pose proof (any_in_present Spec.symbol p) as Hs.
  cbn [Spec.alphabet] in Hl, Hu, Hd, Hs. rewrite Hl, Hu, Hd, Hs.
  rewrite len_punctuation. cbn [fmap list_fmap foldr Spec.class_size].
  replace (Z.of_nat (length (remove_dups punctuation))) with 32 by (by vm_compute).
  repeat case_match; lia.
Qed.

Lemma char_set_size_range (p : str) :
  char_set_size p = 0 ∨ 10 ≤ char_set_size p ≤ 94.
Proof.
  unfold char_set_size. rewrite len_punctuation. repeat case_match; lia.
Qed.

(** A password with a character of some class is not empty. *)
Lemma char_set_size_pos_len (p : str) : 0 < char_set_size p → 0 < len p.
Proof.
  destruct p as [|c p]; [by vm_compute|]. unfold len. simpl. lia.
Qed.

(** [math.log2] is only called on a positive size, so it never raises. *)
Lemma entropy_of_eq (p : str) :
  entropy_of p =
  Ok (if 0 <? char_set_size p then Num.Log2Val (len p) (char_set_size p)
      else Num.IntVal 0).
Proof.
  unfold entropy_of, Num.math_log2.
  destruct (0 <? char_set_size p) eqn:Hpos; [|done].
  cbn. by rewrite Z.mul_1_r.
Qed.

Lemma entropy_of_nonneg (p : str) (e : Num.t) :
  entropy_of p = Ok e → (0 <= Num.to_R e)%R.
Proof.
  rewrite entropy_of_eq. intros [= <-].
  destruct (Z.ltb_spec 0 (char_set_size p)) as [Hpos|_]; cbn [Num.to_R]; [|lra].
  apply Rmult_le_pos.
  - apply IZR_le. pose proof (char_set_size_pos_len p Hpos). lia.
  - unfold Rlog. apply Rmult_le_pos.
    + rewrite <- ln_1. apply (ln_IZR_le 1); lia.
    + left. apply Rinv_0_lt_compat, ln_2_pos.
Qed.

(** On the entropy of a password, the integer tests of the entropy block
    are the comparisons of the real numbers. *)
Lemma entropy_tests_exact (p : str) (e : Num.t) (T : Z) :
  entropy_of p = Ok e → 0 ≤ T →
  (Num.geb e T = true ↔ (IZR T <= Num.to_R e)%R)
  ∧ (Num.gtb e T = true ↔ (IZR T < Num.to_R e)%R).
Proof.
  rewrite entropy_of_eq. intros [= <-] HT.
  destruct (Z.ltb_spec 0 (char_set_size p)) as [Hpos|_].
  - pose proof (char_set_size_pos_len p Hpos).
    split; [apply geb_Log2Val|apply gtb_Log2Val]; lia.
  - cbn [Num.geb Num.gtb Num.to_R]. rewrite Z.leb_le, Z.ltb_lt. split; split.
    + apply IZR_le.
    + apply le_IZR.
    + apply IZR_lt.
    + apply lt_IZR.
Qed.

(** The function as one expression of the three blocks. *)
Lemma evaluate_eq (p : str) :
  evaluate_password_strength p =
  (e ← entropy_of p;
   let s := length_score p + diversity_score p + entropy_score e in
   q ← truediv s 14;
   mret {| score := s; max_score := 14; percentage := (q * 100)%float;
           strength := fst (rating_block (q * 100)%float);
           color := snd (rating_block (q * 100)%float);
           reset := esc "[0m";
           feedback := length_notes p ++ diversity_notes p ++ entropy_notes e;
           entropy := e |}).
Proof.
  unfold evaluate_password_strength.
  rewrite length_block_eq, diversity_block_eq.
  destruct (entropy_of p) as [e|err]; [|done].
  cbn [mbind result_bind]. rewrite entropy_block_eq.
  rewrite !Z.add_0_l. cbn [app].
  destruct (truediv _ 14) as [q|err]; [|done].
  cbn [mbind result_bind]. rewrite <- app_assoc. by destruct (rating_block _).
Qed.

(** For each of the fifteen possible scores, the rating the code reaches
    on binary64 floats is the one the exact fraction gives. *)
Lemma rating_of_score (s : Z) :
  0 ≤ s ≤ 14 →
  ∃ q, truediv s 14 = Ok q
    ∧ q = (float_of_int s / float_of_int 14)%float
    ∧ fst (rating_block (q * 100)%float)
      = Spec.rating_name (Spec.rating (Spec.percentage s))
    ∧ ((0 <=? q * 100) && (q * 100 <=? 100))%float = true.
Proof.
  intros Hs. eexists. split; [reflexivity|].
  assert (s = 0 ∨ s = 1 ∨ s = 2 ∨ s = 3 ∨ s = 4 ∨ s = 5 ∨ s = 6 ∨ s = 7
          ∨ s = 8 ∨ s = 9 ∨ s = 10 ∨ s = 11 ∨ s = 12 ∨ s = 13 ∨ s = 14)
    as Hcases by lia.
  repeat (destruct Hcases as [->|Hcases]); try subst s;
    (split; [reflexivity|split; by vm_compute]).
Qed.

Lemma total_score_bounds (p : str) (e : Num.t) :
  0 ≤ length_score p + diversity_score p + entropy_score e ≤ 14.
Proof.
  pose proof (length_score_bounds p). pose proof (diversity_score_bounds p).
  pose proof (entropy_score_bounds e). lia.
Qed.

End EvaluatorFacts.

(** * The evaluator's report *)

Section EvaluatorReport.
Import Evaluator.

(** The report of a password, with the entropy and the score written out:
    the function returns for every input. *)
Lemma evaluate_Ok (p : str) :
  let e := if 0 <? char_set_size p then Num.Log2Val (len p) (char_set_size p)
           else Num.IntVal 0 in
  let s := length_score p + diversity_score p + entropy_score e in
  ∃ q, truediv s 14 = Ok q
    ∧ q = (float_of_int s / float_of_int 14)%float
    ∧ fst (rating_block (q * 100)%float)
      = Spec.rating_name (Spec.rating (Spec.percentage s))
    ∧ ((0 <=? q * 100) && (q * 100 <=? 100))%float = true
    ∧ evaluate_password_strength p =
      Ok {| score := s; max_score := 14; percentage := (q * 100)%float;
            strength := fst (rating_block (q * 100)%float);
            color := snd (rating_block (q * 100)%float);
            reset := esc "[0m";
            feedback := length_notes p ++ diversity_notes p ++ entropy_notes e;
            entropy := e |}.
Proof.
  intros e s.
  destruct (rating_of_score s (total_score_bounds p e)) as (q & Hq & Hdiv & Hr & Hb).
  exists q. repeat split; try done.
  rewrite evaluate_eq, entropy_of_eq. fold e. cbn [mbind result_bind]. fold s.
  by rewrite Hq.
Qed.

Lemma char_set_size_Permutation (p p' : str) :
  p ≡ₚ p' → char_set_size p = char_set_size p'.
Proof.
  intros H. unfold char_set_size.
  by rewrite !(any_in_Permutation _ p p' H).
Qed.

Lemma diversity_block_Permutation (p p' : str) (l : locals) :
  p ≡ₚ p' → diversity_block p l = diversity_block p' l.
Proof.
  intros H. unfold diversity_block, class_test.
  by rewrite !(any_in_Permutation _ p p' H).
Qed.

(** C2: for every password the report's entropy is
    [len(password) * log2(activeAlphabetSize)], where the active alphabet
    size adds 26 for a lowercase letter present, 26 for an uppercase
    letter, 10 for a digit and the size of the punctuation set for a
    symbol; the entropy is 0 when that size is 0. *)
Theorem evaluate_entropy_bits (p : str) :
  ∃ r, evaluate_password_strength p = Ok r
    ∧ char_set_size p = Spec.activeAlphabetSize p
    ∧ Spec.activeAlphabetSize p =
      (if Spec.present Spec.lowercase p then 26 else 0)
      + (if Spec.present Spec.uppercase p then 26 else 0)
      + (if Spec.present Spec.digit p then 10 else 0)
      + (if Spec.present Spec.symbol p then 32 else 0)
    ∧ Num.to_R (entropy r) = Spec.entropyBits p.
Proof.
  destruct (evaluate_Ok p) as (q & _ & _ & _ & _ & Hev).
  eexists. split; [exact Hev|]. split; [apply char_set_size_active|].
  split.
  { unfold Spec.activeAlphabetSize, Spec.classes.
    cbn [fmap list_fmap foldr Spec.class_size].
    replace (Z.of_nat (length (remove_dups punctuation))) with 32 by (by vm_compute).
    lia. }
  cbn [entropy]. unfold Spec.entropyBits.
  rewrite <- char_set_size_active.
  destruct (Z.ltb_spec 0 (char_set_size p)) as [Hpos|Hle];
    destruct (decide (char_set_size p = 0)) as [Hz|Hnz]; cbn [Num.to_R]; try done; try lia.
  destruct (char_set_size_range p); lia.
Qed.

(** C3: for every password the report's percentage is [score / 14 * 100]
    and its rating is Excellent from 90, Strong from 70, Moderate from 50,
    Weak from 30 and Very Weak below, both on the binary64 percentage the
    code computes and on the exact fraction. *)
Theorem evaluate_rating (p : str) :
  ∃ r, evaluate_password_strength p = Ok r
    ∧ max_score r = 14
    ∧ percentage r = (float_of_int (score r) / float_of_int (max_score r) * 100)%float
    ∧ strength r =
      (if 90 <=? percentage r then "Excellent"
       else if 70 <=? percentage r then "Strong"
       else if 50 <=? percentage r then "Moderate"
       else if 30 <=? percentage r then "Weak"
       else "Very Weak")%float%string
    ∧ strength r = Spec.rating_name (Spec.rating (Spec.percentage (score r))).
Proof.
  destruct (evaluate_Ok p) as (q & _ & Hq & Hr & _ & Hev).
  eexists. split; [exact Hev|]. cbn [max_score percentage score strength].
  split; [done|]. split; [by rewrite Hq|]. split; [|exact Hr].
  unfold rating_block. by repeat case_match.
Qed.

(** C4: a permutation of a password's characters gets the same report:
    the same score, percentage, rating, entropy and feedback. *)
Theorem evaluate_Permutation (p p' : str) :
  p ≡ₚ p' → evaluate_password_strength p = evaluate_password_strength p'.
Proof.
  intros H. rewrite !evaluate_eq, !entropy_of_eq.
  rewrite (char_set_size_Permutation p p' H), (len_Permutation p p' H).
  rewrite (length_score_len p p'), (length_notes_len p p')
    by (by apply len_Permutation).
  unfold diversity_score, diversity_notes.
  by rewrite (diversity_block_Permutation p p' _ H).
Qed.

Lemma evaluate_Permutation_witness :
  lit "Ab3! x" ≡ₚ lit "x !3bA"
  ∧ evaluate_password_strength (lit "Ab3! x")
    = evaluate_password_strength (lit "x !3bA").
Proof.
  assert (lit "Ab3! x" ≡ₚ lit "x !3bA") as H.
  { apply (bool_decide_unpack _). by vm_compute. }
  split; [exact H|]. exact (evaluate_Permutation _ _ H).
Defined.

(** C6: the evaluation never fails: every string, the empty one included,
    gets a well-formed report (a score from 0 to 14 out of 14, a percentage
    from 0 to 100, one of the five ratings, an entropy that is not
    negative); the empty string gets score 0, entropy 0 and Very Weak. *)
Theorem evaluate_never_fails :
  (∀ p : str, ∃ r, evaluate_password_strength p = Ok r
     ∧ 0 ≤ score r ≤ 14 ∧ max_score r = 14
     ∧ ((0 <=? percentage r) && (percentage r <=? 100))%float = true
     ∧ (∃ rating, strength r = Spec.rating_name rating)
     ∧ (0 <= Num.to_R (entropy r))%R)
  ∧ (∃ r, evaluate_password_strength [] = Ok r
     ∧ score r = 0 ∧ entropy r = Num.IntVal 0 ∧ Num.to_R (entropy r) = 0%R
     ∧ strength r = Spec.rating_name Spec.VeryWeak).
Proof.
  split.
  - intros p. destruct (evaluate_Ok p) as (q & _ & _ & Hr & Hb & Hev).
    eexists. split; [exact Hev|]. cbn [score max_score percentage strength entropy].
    split; [apply total_score_bounds|]. split; [done|]. split; [exact Hb|].
    split; [eexists; exact Hr|].
    apply (entropy_of_nonneg p). apply entropy_of_eq.
  - eexists. split; [by vm_compute|]. by cbn.
Qed.

End EvaluatorReport.

(** * Particular passwords *)

Section EvaluatorCases.
Import Evaluator.

(** C7: eight lowercase letters get length score 1, diversity score 1, an
    entropy of [8 * log2(26)], which is 37.6 to the nearest tenth and below
    40, entropy score 1 and total score 3. *)
Theorem evaluate_eight_lowercase :
  let p := lit "aaaaaaaa" in
  ∃ r, evaluate_password_strength p = Ok r
    ∧ length_score p = 1
    ∧ diversity_score p = 1
    ∧ entropy r = Num.Log2Val 8 26
    ∧ Num.to_R (entropy r) = (8 * Rlog 2 26)%R
    ∧ (3755 / 100 <= Num.to_R (entropy r) < 3765 / 100)%R
    ∧ (Num.to_R (entropy r) < 40)%R
    ∧ Num.geb (entropy r) 40 = false
    ∧ entropy_score (entropy r) = 1
    ∧ score r = 3.
Proof.
  intros p. eexists. split; [by vm_compute|].
  cbn [entropy score Num.to_R].
  assert (3755 / 100 <= 8 * Rlog 2 26 < 3765 / 100)%R as Hbits.
  { split.
    - apply (proj1 (log2_ge_frac 8 26 3755 100
                      ltac:(lia) ltac:(lia) ltac:(lia) ltac:(lia))).
      by vm_compute.
    - apply Rnot_le_lt. intros H.
      apply (proj2 (log2_ge_frac 8 26 3765 100
                      ltac:(lia) ltac:(lia) ltac:(lia) ltac:(lia))) in H.
      revert H. by vm_compute. }
  repeat split; try done; lra.
Qed.

(** C9: a character of none of the four classes counts in the length
    (which the length score and the entropy multiply by) but adds nothing
    to the diversity score or to the alphabet size; a password of at least
    eight such characters gets diversity score 0, entropy 0 and a total
    equal to its length score. *)
Theorem unclassified_characters (p1 p2 p : str) (ch : char) :
  Spec.unclassified ch → Forall Spec.unclassified p → 8 ≤ len p →
  (len (p1 ++ ch :: p2) = len (p1 ++ p2) + 1
   ∧ (∀ ch' : char, length_score (p1 ++ ch :: p2) = length_score (p1 ++ ch' :: p2))
   ∧ diversity_score (p1 ++ ch :: p2) = diversity_score (p1 ++ p2)
   ∧ char_set_size (p1 ++ ch :: p2) = char_set_size (p1 ++ p2)
   ∧ entropy_of (p1 ++ ch :: p2) =
     Ok (if 0 <? char_set_size (p1 ++ p2)
         then Num.Log2Val (len (p1 ++ p2) + 1) (char_set_size (p1 ++ p2))
         else Num.IntVal 0))
  ∧ (∃ r, evaluate_password_strength p = Ok r
     ∧ diversity_score p = 0
     ∧ char_set_size p = 0
     ∧ entropy r = Num.IntVal 0
     ∧ Num.to_R (entropy r) = 0%R
     ∧ entropy_score (entropy r) = 0
     ∧ 1 ≤ length_score p
     ∧ score r = length_score p).
Proof.
  intros Hch Hp Hlen.
  pose proof (any_in_drop_unclassified Spec.lowercase p1 p2 ch Hch) as Hl.
  pose proof (any_in_drop_unclassified Spec.uppercase p1 p2 ch Hch) as Hu.
  pose proof (any_in_drop_unclassified Spec.digit p1 p2 ch Hch) as Hd.
  pose proof (any_in_drop_unclassified Spec.symbol p1 p2 ch Hch) as Hs.
  cbn [Spec.alphabet] in Hl, Hu, Hd, Hs.
  assert (len (p1 ++ ch :: p2) = len (p1 ++ p2) + 1) as Hlen1.
  { unfold len. rewrite !length_app. simpl. lia. }
  assert (char_set_size (p1 ++ ch :: p2) = char_set_size (p1 ++ p2)) as Hcss.
  { unfold char_set_size. by rewrite Hl, Hu, Hd, Hs. }
  split.
  - split; [exact Hlen1|]. split.
    { intros ch'. apply length_score_len. unfold len. by rewrite !length_app. }
    split; [by rewrite !diversity_score_eq, Hl, Hu, Hd, Hs|].
    split; [exact Hcss|].
    by rewrite entropy_of_eq, Hcss, Hlen1.
  - pose proof (any_in_all_unclassified Spec.lowercase p Hp) as Hl'.
    pose proof (any_in_all_unclassified Spec.uppercase p Hp) as Hu'.
    pose proof (any_in_all_unclassified Spec.digit p Hp) as Hd'.
    pose proof (any_in_all_unclassified Spec.symbol p Hp) as Hs'.
    cbn [Spec.alphabet] in Hl', Hu', Hd', Hs'.
    assert (char_set_size p = 0) as Hz.
    { unfold char_set_size. by rewrite Hl', Hu', Hd', Hs'. }
    assert (diversity_score p = 0) as Hdiv.
    { by rewrite diversity_score_eq, Hl', Hu', Hd', Hs'. }
    destruct (evaluate_Ok p) as (q & _ & _ & _ & _ & Hev).
    rewrite Hz, Hdiv in Hev. cbn [Z.ltb Z.compare] in Hev.
    eexists. split; [exact Hev|]. cbn [entropy score Num.to_R].
    repeat split; try done.
    + unfold length_score, length_block. repeat case_match; simpl; lia.
    + change (entropy_score (Num.IntVal 0)) with 0. lia.
Qed.

Lemma unclassified_characters_witness :
  Spec.unclassified 32%N ∧ Forall Spec.unclassified Sample.non_ascii
  ∧ 8 ≤ len Sample.non_ascii
  ∧ ∃ r, evaluate_password_strength Sample.non_ascii = Ok r
       ∧ score r = length_score Sample.non_ascii.
Proof.
  assert (Spec.unclassified 32%N) as Hch.
  { apply (bool_decide_unpack _). by vm_compute. }
  assert (Forall Spec.unclassified Sample.non_ascii) as Hp.
  { apply (bool_decide_unpack _). by vm_compute. }
  assert (8 ≤ len Sample.non_ascii) as Hlen by (by vm_compute).
  repeat split; try done.
  destruct (unclassified_characters (lit "pass") (lit "word") _ _ Hch Hp Hlen)
    as (_ & r & Hev & _ & _ & _ & _ & _ & _ & Hscore).
  exists r. split; [exact Hev|exact Hscore].
Defined.

End EvaluatorCases.

(** * Facts about the random source *)

Section RandFacts.
Import Rand.

Lemma returns_ret {A} (a : A) (w : world) (Q : A → world → Prop) :
  Q a w → returns (mret a) w Q.
Proof. intros H. by exists a, w. Qed.

Lemma returns_bind {A B} (m : M A) (f : A → M B) (w : world)
    (P : A → world → Prop) (Q : B → world → Prop) :
  returns m w P →
  (∀ a w', P a w' → returns (f a) w' Q) →
  returns (m ≫= f) w Q.
Proof.
  intros (a & w' & Hm & HP) Hf.
  destruct (Hf a w' HP) as (b & w'' & Hfa & HQ).
  exists b, w''. split; [|done].
  unfold mbind, M_bind. by rewrite Hm.
Qed.

Lemma returns_mono {A} (m : M A) (w : world) (P Q : A → world → Prop) :
  returns m w P → (∀ a w', P a w' → Q a w') → returns m w Q.
Proof. intros (a & w' & Hm & HP) HPQ. exists a, w'. auto. Qed.

Lemma returns_lift {A} (r : result A) (a : A) (w : world) (Q : A → world → Prop) :
  r = Ok a → Q a w → returns (lift r) w Q.
Proof. intros -> HQ. by exists a, w. Qed.

Lemma bind_Ok {A B} (m : M A) (f : A → M B) (w w' : world) (a : A) :
  m w = (Ok a, w') → (m ≫= f) w = f a w'.
Proof. intros Hm. unfold mbind, M_bind. by rewrite Hm. Qed.

Lemma quiet_refl (w : world) : quiet w w.
Proof. done. Qed.

Lemma quiet_trans (w1 w2 w3 : world) : quiet w1 w2 → quiet w2 w3 → quiet w1 w3.
Proof. unfold quiet. congruence. Qed.

(** [randbelow n] stays below [n] and prints nothing. *)
Lemma randbelow_returns (n : nat) (w : world) :
  (0 < n)%nat → returns (randbelow n) w (λ k w', (k < n)%nat ∧ quiet w w').
Proof.
  intros Hn. eexists _, _. split; [reflexivity|]. split; [|done].
  apply Nat.mod_upper_bound. lia.
Qed.

(** A choice from a sequence that is not empty is one of its members. *)
Lemma choice_returns {A} (seq : list A) (w : world) :
  seq ≠ [] → returns (choice seq) w (λ c w', c ∈ seq ∧ quiet w w').
Proof.
  intros Hne. unfold choice.
  destruct (decide (length seq = 0%nat)) as [Hz|Hnz].
  { by apply nil_length_inv in Hz. }
  eapply returns_bind; [apply randbelow_returns; lia|].
  intros k w' [Hk Hq]. cbn beta.
  destruct (lookup_lt_is_Some_2 seq k Hk) as [c Hc].
  apply returns_lift with c; [unfold getitem; by rewrite Hc|].
  split; [by eapply list_elem_of_lookup_2|done].
Qed.

(** Swapping two positions in range permutes the list. *)
Lemma swap_items_Ok {A} (x : list A) (i j : nat) :
  (i < length x)%nat → (j < length x)%nat →
  ∃ x', swap_items x i j = Ok x' ∧ x' ≡ₚ x.
Proof.
  intros Hi Hj.
  destruct (lookup_lt_is_Some_2 x i Hi) as [xi Hxi].
  destruct (lookup_lt_is_Some_2 x j Hj) as [xj Hxj].
  exists (<[j:=xi]> (<[i:=xj]> x)). split.
  - unfold swap_items, getitem, setitem. rewrite Hxi, Hxj.
    cbn [mbind result_bind].
    rewrite decide_True by done. cbn [mbind result_bind].
    rewrite decide_True by (by rewrite length_insert). done.
  - by apply Permutation_insert_swap.
Qed.

Lemma shuffle_step_returns {A} (x : list A) (i : nat) (w : world) :
  (i < length x)%nat →
  returns (shuffle_step x i) w (λ x' w', x' ≡ₚ x ∧ quiet w w').
Proof.
  intros Hi. unfold shuffle_step.
  eapply returns_bind; [apply randbelow_returns; lia|].
  intros j w' [Hj Hq]. cbn beta.
  destruct (swap_items_Ok x i j) as (x' & Hswap & Hperm); [lia..|].
  by apply returns_lift with x'.
Qed.

Lemma shuffle_loop_returns {A} (idxs : list nat) (x : list A) (w : world) :
  Forall (λ i, (i < length x)%nat) idxs →
  returns (for_each shuffle_step idxs x) w (λ x' w', x' ≡ₚ x ∧ quiet w w').
Proof.
  revert x w. induction idxs as [|i idxs IH]; intros x w Hidx.
  - by apply returns_ret.
  - apply Forall_cons in Hidx as [Hi Hidx]. cbn [for_each].
    eapply returns_bind; [by apply shuffle_step_returns|].
    intros x1 w1 [Hperm Hq]. cbn beta.
    eapply returns_mono.
    + apply IH. eapply Forall_impl; [exact Hidx|].
      intros k Hk. cbn beta in *. by rewrite Hperm.
    + intros x2 w2 [Hperm2 Hq2]. split; [by rewrite Hperm2|].
      by eapply quiet_trans.
Qed.

(** The shuffle never raises and returns a permutation of its argument. *)
Lemma shuffle_returns {A} (x : list A) (w : world) :
  returns (shuffle x) w (λ x' w', x' ≡ₚ x ∧ quiet w w').
Proof.
  apply shuffle_loop_returns. apply Forall_forall. intros i Hi.
  unfold reversed_range_from_1, len in Hi.
  apply elem_of_reverse, elem_of_seq in Hi. lia.
Qed.

(** [n] draws from a sequence that is not empty give [n] of its members. *)
Lemma collect_choice_returns {A I} (seq : list A) (idxs : list I) (w : world) :
  seq ≠ [] →
  returns (collect (choice seq) idxs) w
    (λ l w', length l = length idxs ∧ Forall (λ c, c ∈ seq) l ∧ quiet w w').
Proof.
  intros Hne. revert w. induction idxs as [|i idxs IH]; intros w.
  - by apply returns_ret.
  - cbn [collect].
    eapply returns_bind; [by apply choice_returns|].
    intros c w1 [Hc Hq1]. cbn beta.
    eapply returns_bind; [apply IH|].
    intros l w2 (Hlen & Hall & Hq2). cbn beta.
    apply returns_ret. split; [simpl; lia|].
    split; [by constructor|by eapply quiet_trans].
Qed.

End RandFacts.

(** * Facts about the generator *)

Section GeneratorFacts.
Import Rand Generator.

(** The lowercase letters are always part of the pool, so it is never
    empty. *)
Lemma all_characters_nonempty (u n s : bool) : all_characters u n s ≠ [].
Proof. by destruct u, n, s. Qed.

Lemma present_intro (c : Spec.CharacterClass) (p : str) (ch : char) :
  ch ∈ p → ch ∈ Spec.alphabet c → Spec.present c p = true.
Proof.
  intros Hp Hc. unfold Spec.present. apply bool_decide_eq_true.
  apply Exists_exists. by exists ch.
Qed.

Lemma present_Permutation (c : Spec.CharacterClass) (p p' : str) :
  p ≡ₚ p' → Spec.present c p = Spec.present c p'.
Proof.
  intros H. rewrite <- !any_in_present. by apply any_in_Permutation.
Qed.

(** A character just drawn from a class alphabet witnesses the class. *)
Ltac drawn_present :=
  first [ eapply (present_intro Spec.lowercase)
        | eapply (present_intro Spec.uppercase)
        | eapply (present_intro Spec.digit)
        | eapply (present_intro Spec.symbol) ];
  [|eassumption];
  repeat first [ apply list_elem_of_here | apply list_elem_of_further ].

(** A character of one of the sets is a character of their concatenation. *)
Ltac in_pool := cbn beta; rewrite !elem_of_app; tauto.

Lemma ensure_min_length_returns (length : Z) (w : world) :
  returns (ensure_min_length length) w
    (λ l w', l = Z.max length MIN_LENGTH
             ∧ stdout w' = if length <? MIN_LENGTH
                           then stdout w ++ [length_warning] else stdout w).
Proof.
  unfold ensure_min_length, MIN_LENGTH.
  destruct (Z.ltb_spec length 8) as [Hlt|Hge].
  - eexists _, _. split; [reflexivity|]. split; [lia|done].
  - apply returns_ret. split; [lia|done].
Qed.

Lemma append_choice_if_returns (flag : bool) (alphabet password : str) (w : world) :
  (flag = true → alphabet ≠ []) →
  returns (append_choice_if flag alphabet password) w
    (λ p' w', quiet w w'
              ∧ if flag then ∃ c, c ∈ alphabet ∧ p' = password ++ [c]
                else p' = password).
Proof.
  intros Hne. unfold append_choice_if. destruct flag.
  - eapply returns_bind; [apply choice_returns; auto|].
    intros c w' [Hc Hq]. cbn beta. apply returns_ret. eauto.
  - by apply returns_ret.
Qed.

(** The mandatory phase draws between one and four characters, one from
    each selected set. *)
Lemma mandatory_draws_returns (u n s : bool) (w : world) :
  returns (mandatory_draws u n s) w
    (λ m w', quiet w w'
             ∧ len m = 1 + Z.b2z u + Z.b2z n + Z.b2z s
             ∧ Spec.covers u n s m
             ∧ Forall (λ c, c ∈ all_characters u n s) m).
Proof.
  unfold mandatory_draws.
  eapply returns_bind; [apply (choice_returns lowercase_letters); done|].
  intros c0 w0 [Hc0 Hq0]. cbn beta zeta.
  eapply returns_bind.
  { apply append_choice_if_returns. by intros ->. }
  intros p1 w1 [Hq1 Hp1]. cbn beta.
  eapply returns_bind.
  { apply append_choice_if_returns. by intros ->. }
  intros p2 w2 [Hq2 Hp2]. cbn beta.
  eapply returns_mono.
  { apply append_choice_if_returns. by intros ->. }
  intros p3 w3 [Hq3 Hp3]. cbn beta.
  split; [unfold quiet in *; congruence|].
  unfold Spec.covers, all_characters, len.
  destruct u, n, s; cbn [uppercase_letters Generator.digits symbols] in *;
    repeat match goal with
           | H : ∃ c, _ |- _ => destruct H as (? & ? & ?)
           end; subst; cbn [app length Z.b2z];
    (split; [done|]);
    (split; [repeat split; try done; try intros _; drawn_present
            |repeat (apply Forall_cons; split); try (by apply Forall_nil); in_pool]).
Qed.

(** The fill phase appends as many characters of the pool as [range]
    yields. *)
Lemma fill_returns (pool : str) (k : Z) (password : str) (w : world) :
  pool ≠ [] →
  returns (fill pool k password) w
    (λ p' w', quiet w w'
              ∧ ∃ filler, p' = password ++ filler
                          ∧ length filler = Z.to_nat k
                          ∧ Forall (λ c, c ∈ pool) filler).
Proof.
  intros Hne. unfold fill.
  eapply returns_bind; [by apply collect_choice_returns|].
  intros rest w' (Hlen & Hall & Hq). cbn beta. apply returns_ret.
  split; [done|]. exists rest. split; [done|]. split; [|done].
  unfold range in Hlen. by rewrite Hlen, length_seq.
Qed.

(** The run of [generate_password], phase by phase: the clamped length, the
    mandatory characters [m], the filler, and the shuffled result. *)
Lemma generate_password_phases (length : Z) (u n s : bool) (w : world) :
  ∃ (w1 : world) (m : str) (w2 : world) (filler : str) (w3 : world)
    (pw : str) (w4 : world),
    ensure_min_length length w = (Ok (Z.max length MIN_LENGTH), w1)
    ∧ mandatory_draws u n s w1 = (Ok m, w2)
    ∧ fill (all_characters u n s)
        (remaining_length (Z.max length MIN_LENGTH) m) m w2
      = (Ok (m ++ filler), w3)
    ∧ shuffle (m ++ filler) w3 = (Ok pw, w4)
    ∧ generate_password length u n s w = (Ok pw, w4)
    ∧ stdout w4 = (if length <? MIN_LENGTH
                   then stdout w ++ [length_warning] else stdout w)
    ∧ len m = 1 + Z.b2z u + Z.b2z n + Z.b2z s
    ∧ Spec.covers u n s m
    ∧ Forall (λ c, c ∈ all_characters u n s) (m ++ filler)
    ∧ len filler = remaining_length (Z.max length MIN_LENGTH) m
    ∧ pw ≡ₚ m ++ filler.
Proof.
  destruct (ensure_min_length_returns length w) as (l & w1 & H1 & -> & Hout).
  destruct (mandatory_draws_returns u n s w1) as (m & w2 & H2 & Hq2 & Hlen & Hcov & Hin).
  destruct (fill_returns (all_characters u n s)
              (remaining_length (Z.max length MIN_LENGTH) m) m w2
              (all_characters_nonempty u n s))
    as (p' & w3 & H3 & Hq3 & filler & -> & Hfill & Hfin).
  destruct (shuffle_returns (m ++ filler) w3) as (pw & w4 & H4 & Hperm & Hq4).
  exists w1, m, w2, filler, w3, pw, w4.
  repeat split; try done.
  - unfold generate_password. rewrite (bind_Ok _ _ _ _ _ H1).
    rewrite decide_False by apply all_characters_nonempty.
    rewrite (bind_Ok _ _ _ _ _ H2). by rewrite (bind_Ok _ _ _ _ _ H3).
  - unfold quiet in *. congruence.
  - destruct Hcov as (? & ? & ? & ?); done.
  - destruct Hcov as (? & ? & ? & ?); auto.
  - destruct Hcov as (? & ? & ? & ?); auto.
  - destruct Hcov as (? & ? & ? & ?); auto.
  - by apply Forall_app.
  - unfold len. rewrite Hfill. unfold remaining_length, MIN_LENGTH.
    destruct u, n, s; cbn [Z.b2z] in Hlen; lia.
Qed.

(** Covering the classes survives the fill and the shuffle. *)
Lemma covers_fill_shuffle (u n s : bool) (m filler pw : str) :
  Spec.covers u n s m → pw ≡ₚ m ++ filler → Spec.covers u n s pw.
Proof.
  intros Hcov Hperm.
  assert (∀ c, Spec.present c m = true → Spec.present c pw = true) as Hkeep.
  { intros c Hc. rewrite (present_Permutation c pw (m ++ filler) Hperm).
    unfold Spec.present in *. apply bool_decide_eq_true.
    apply bool_decide_eq_true in Hc. apply Exists_app. by left. }
  destruct Hcov as (Hl & Hu & Hn & Hs). repeat split; auto.
Qed.

(** C1: for a length of at least 8 and any flags, the password has exactly
    the requested length and a character of every enabled class, a
    lowercase letter always. *)
Theorem generate_meets_request (length : Z) (u n s : bool) (w : world) :
  8 ≤ length →
  ∃ pw w', generate_password length u n s w = (Ok pw, w')
    ∧ len pw = length
    ∧ Forall (λ c, c ∈ all_characters u n s) pw
    ∧ Spec.covers u n s pw
    ∧ any_in ascii_lowercase pw = true
    ∧ (u = true → any_in ascii_uppercase pw = true)
    ∧ (n = true → any_in Py.digits pw = true)
    ∧ (s = true → any_in punctuation pw = true).
Proof.
  intros Hlen.
  destruct (generate_password_phases length u n s w)
    as (w1 & m & w2 & filler & w3 & pw & w4
        & _ & _ & _ & _ & Hgen & _ & Hm & Hcov & Hpool & Hfill & Hperm).
  exists pw, w4. split; [exact Hgen|]. split.
  { rewrite (len_Permutation _ _ Hperm).
    unfold remaining_length, MIN_LENGTH, len in *. rewrite length_app. lia. }
  split; [by rewrite Hperm|].
  pose proof (covers_fill_shuffle u n s m filler pw Hcov Hperm) as Hpw.
  split; [exact Hpw|]. destruct Hpw as (Hl & Hu & Hn & Hs).
  rewrite (any_in_present Spec.lowercase), (any_in_present Spec.uppercase),
    (any_in_present Spec.digit), (any_in_present Spec.symbol). auto.
Qed.

Lemma generate_meets_request_witness :
  8 ≤ 12
  ∧ ∃ pw w', generate_password 12 true false true Sample.world = (Ok pw, w')
      ∧ len pw = 12 ∧ Spec.covers true false true pw.
Proof.
  assert (8 ≤ 12) as H by lia. split; [exact H|].
  destruct (generate_meets_request 12 true false true Sample.world H)
    as (pw & w' & Hgen & Hlen & _ & Hcov & _).
  exists pw, w'. split; [exact Hgen|]. split; [exact Hlen|exact Hcov].
Defined.

(** C5: for a length below 8 and any flags, the call still returns a
    password, of length exactly 8 and not of the requested length, after
    printing the warning. *)
Theorem generate_clamps_short_length (length : Z) (u n s : bool) (w : world) :
  length < 8 →
  ∃ pw w', generate_password length u n s w = (Ok pw, w')
    ∧ len pw = 8
    ∧ len pw ≠ length
    ∧ stdout w' = stdout w ++ [length_warning].
Proof.
  intros Hlen.
  destruct (generate_password_phases length u n s w)
    as (w1 & m & w2 & filler & w3 & pw & w4
        & _ & _ & _ & _ & Hgen & Hout & Hm & _ & _ & Hfill & Hperm).
  exists pw, w4. split; [exact Hgen|].
  assert (len pw = 8) as H8.
  { rewrite (len_Permutation _ _ Hperm).
    unfold remaining_length, MIN_LENGTH, len in *. rewrite length_app. lia. }
  split; [exact H8|]. split; [lia|].
  rewrite Hout. unfold MIN_LENGTH.
  by destruct (Z.ltb_spec length 8); [|lia].
Qed.

Lemma generate_clamps_short_length_witness :
  -3 < 8
  ∧ ∃ pw w', generate_password (-3) false true false Sample.world = (Ok pw, w')
      ∧ len pw = 8.
Proof.
  assert (-3 < 8) as H by lia. split; [exact H|].
  destruct (generate_clamps_short_length (-3) false true false Sample.world H)
    as (pw & w' & Hgen & Hlen & _).
  exists pw, w'. split; [exact Hgen|exact Hlen].
Defined.

(** C8: for any length and flags the pool of characters is not empty, as
    it always holds the lowercase letters, so the guard against an empty
    pool is never taken: the call returns a password and raises no
    [ValueError]. *)
Theorem generate_never_invalid_configuration
    (length : Z) (u n s : bool) (w : world) :
  all_characters u n s ≠ []
  ∧ (∃ pw w', generate_password length u n s w = (Ok pw, w'))
  ∧ (∀ msg, (generate_password length u n s w).1 ≠ Raise (ValueError msg)).
Proof.
  split; [apply all_characters_nonempty|].
  destruct (generate_password_phases length u n s w)
    as (w1 & m & w2 & filler & w3 & pw & w4 & _ & _ & _ & _ & Hgen & _).
  split; [by exists pw, w4|]. intros msg. by rewrite Hgen.
Qed.

(** C10: for any input the clamped length is at least 8 and the mandatory
    phase draws between one and four characters, so the number of fill
    draws is never negative; the result is a permutation of the mandatory
    characters followed by that many fill characters, none cut off. *)
Theorem fill_count_never_negative (length : Z) (u n s : bool) (w : world) :
  ∃ (l : Z) (w1 : world) (m : str) (w2 : world) (filler pw : str) (w' : world),
    ensure_min_length length w = (Ok l, w1)
    ∧ 8 ≤ l
    ∧ mandatory_draws u n s w1 = (Ok m, w2)
    ∧ 1 ≤ len m ≤ 4
    ∧ 0 ≤ remaining_length l m
    ∧ len (range (remaining_length l m)) = remaining_length l m
    ∧ len filler = remaining_length l m
    ∧ generate_password length u n s w = (Ok pw, w')
    ∧ pw ≡ₚ m ++ filler
    ∧ len pw = l.
Proof.
  destruct (generate_password_phases length u n s w)
    as (w1 & m & w2 & filler & w3 & pw & w4
        & Hmin & Hmand & _ & _ & Hgen & _ & Hm & _ & _ & Hfill & Hperm).
  exists (Z.max length MIN_LENGTH), w1, m, w2, filler, pw, w4.
  unfold remaining_length, MIN_LENGTH in *.
  assert (1 ≤ len m ≤ 4) as Hm4 by (destruct u, n, s; cbn [Z.b2z] in Hm; lia).
  repeat split; try done; try lia.
  - unfold range, len in *. rewrite length_seq. lia.
  - rewrite (len_Permutation _ _ Hperm). unfold len in *.
    rewrite length_app. lia.
Qed.

End GeneratorFacts.

(** * More about the evaluator *)

Section EvaluatorBands.
Import Evaluator.

(** The rating and the colour, band by band of the score. *)
Lemma rating_bands (s : Z) :
  0 ≤ s ≤ 14 →
  ∃ q, truediv s 14 = Ok q
    ∧ rating_block (q * 100)%float =
      (if 13 <=? s then ("Excellent"%string, green)
       else if 10 <=? s then ("Strong"%string, green)
       else if 7 <=? s then ("Moderate"%string, yellow)
       else if 5 <=? s then ("Weak"%string, red)
       else ("Very Weak"%string, red)).
Proof.
  intros Hs. eexists. split; [reflexivity|].
  assert (s = 0 ∨ s = 1 ∨ s = 2 ∨ s = 3 ∨ s = 4 ∨ s = 5 ∨ s = 6 ∨ s = 7
          ∨ s = 8 ∨ s = 9 ∨ s = 10 ∨ s = 11 ∨ s = 12 ∨ s = 13 ∨ s = 14)
    as Hcases by lia.
  repeat (destruct Hcases as [->|Hcases]); try subst s; by vm_compute.
Qed.

(** The report of a password, field by field. *)
Lemma evaluate_facts (p : str) :
  ∃ r, evaluate_password_strength p = Ok r
    ∧ entropy r = (if 0 <? char_set_size p
                   then Num.Log2Val (len p) (char_set_size p)
                   else Num.IntVal 0)
    ∧ score r = length_score p + diversity_score p + entropy_score (entropy r)
    ∧ 0 ≤ score r ≤ 14
    ∧ max_score r = 14
    ∧ percentage r = (float_of_int (score r) / float_of_int 14 * 100)%float
    ∧ feedback r = length_notes p ++ diversity_notes p ++ entropy_notes (entropy r)
    ∧ reset r = esc "[0m"
    ∧ (strength r, color r) =
      (if 13 <=? score r then ("Excellent"%string, green)
       else if 10 <=? score r then ("Strong"%string, green)
       else if 7 <=? score r then ("Moderate"%string, yellow)
       else if 5 <=? score r then ("Weak"%string, red)
       else ("Very Weak"%string, red)).
Proof.
  destruct (evaluate_Ok p) as (q & Hq & Hdiv & _ & _ & Hev).
  eexists. split; [exact Hev|].
  cbn [score strength color entropy max_score percentage feedback reset].
  repeat split; try done; try apply total_score_bounds; [by rewrite Hdiv|].
  destruct (rating_bands _ (total_score_bounds p
              (if 0 <? char_set_size p
               then Num.Log2Val (len p) (char_set_size p) else Num.IntVal 0)))
    as (q' & Hq' & Hbands).
  rewrite Hq in Hq'. injection Hq' as <-. rewrite <- Hbands.
  by destruct (rating_block _).
Qed.

(** X1: the rating is decided by the score alone: Excellent from 13,
    Strong from 10, Moderate from 7, Weak from 5, Very Weak below; green
    for the first two, yellow for Moderate, red for the last two. *)
Theorem rating_by_score (p : str) :
  ∃ r, evaluate_password_strength p = Ok r
    ∧ 0 ≤ score r ≤ 14
    ∧ (strength r, color r) =
      (if 13 <=? score r then ("Excellent"%string, green)
       else if 10 <=? score r then ("Strong"%string, green)
       else if 7 <=? score r then ("Moderate"%string, yellow)
       else if 5 <=? score r then ("Weak"%string, red)
       else ("Very Weak"%string, red)).
Proof.
  destruct (evaluate_facts p) as (r & Hev & _ & _ & Hs & _ & _ & _ & _ & Hband).
  by exists r.
Qed.

(** A larger exponent or a larger base passes every test a smaller one
    passes. *)
Lemma pow_le_mono_both (x x' n n' : Z) :
  1 ≤ x ≤ x' → 0 ≤ n ≤ n' → x ^ n ≤ x' ^ n'.
Proof.
  intros Hx Hn. transitivity (x ^ n').
  - apply Z.pow_le_mono_r; lia.
  - apply Z.pow_le_mono_l; lia.
Qed.

Lemma entropy_score_mono (n x n' x' : Z) :
  0 ≤ n ≤ n' → 1 ≤ x ≤ x' →
  entropy_score (Num.Log2Val n x) ≤ entropy_score (Num.Log2Val n' x').
Proof.
  intros Hn Hx. pose proof (pow_le_mono_both x x' n n' Hx Hn) as Hpow.
  unfold entropy_score, entropy_block, Num.geb, Num.gtb.
  repeat match goal with
         | |- context [?a <=? ?b] => destruct (Z.leb_spec a b)
         | |- context [?a <? ?b] => destruct (Z.ltb_spec a b)
         end; cbn [fst]; lia.
Qed.

(** The entropy of a password, as the code computes it. *)
Lemma entropy_score_cap (p : str) (N : Z) :
  len p ≤ N →
  entropy_score (if 0 <? char_set_size p
                 then Num.Log2Val (len p) (char_set_size p) else Num.IntVal 0)
  ≤ entropy_score (Num.Log2Val N 94).
Proof.
  intros HN. destruct (Z.ltb_spec 0 (char_set_size p)) as [Hpos|Hz].
  - apply entropy_score_mono.
    + pose proof (char_set_size_pos_len p Hpos). lia.
    + destruct (char_set_size_range p); lia.
  - change (entropy_score (Num.IntVal 0)) with 0.
    apply entropy_score_bounds.
Qed.

Lemma length_score_tiers (p : str) :
  length_score p =
  (if 20 <=? len p then 5 else if 16 <=? len p then 4
   else if 12 <=? len p then 3 else if 10 <=? len p then 2
   else if 8 <=? len p then 1 else 0).
Proof. unfold length_score, length_block. by repeat case_match. Qed.

(** X2: a short password cannot score high, whatever it is made of: at
    most 6 below 8 characters, 7 below 10, 9 below 12, 11 below 16 and 13
    below 20.  So Moderate needs 8 characters, Strong 12, Excellent 16. *)
Theorem score_capped_by_length (p : str) :
  ∃ r, evaluate_password_strength p = Ok r
    ∧ (len p < 8 → score r ≤ 6)
    ∧ (len p < 10 → score r ≤ 7)
    ∧ (len p < 12 → score r ≤ 9)
    ∧ (len p < 16 → score r ≤ 11)
    ∧ (len p < 20 → score r ≤ 13)
    ∧ (strength r = "Moderate"%string → 8 ≤ len p)
    ∧ (strength r = "Strong"%string → 12 ≤ len p)
    ∧ (strength r = "Excellent"%string → 16 ≤ len p).
Proof.
  destruct (evaluate_facts p)
    as (r & Hev & Hent & Hscore & Hs & _ & _ & _ & _ & Hband).
  exists r. split; [exact Hev|]. rewrite Hent in Hscore.
  pose proof (diversity_score_bounds p) as Hd.
  pose proof (length_score_tiers p) as Hl.
  assert (len p < 8 → score r ≤ 6) as H8.
  { intros H. pose proof (entropy_score_cap p 7 ltac:(lia)) as He.
    change (entropy_score (Num.Log2Val 7 94)) with 2 in He.
    revert Hl. repeat case_match; lia. }
  assert (len p < 10 → score r ≤ 7) as H10.
  { intros H. pose proof (entropy_score_cap p 9 ltac:(lia)) as He.
    change (entropy_score (Num.Log2Val 9 94)) with 2 in He.
    revert Hl. repeat case_match; lia. }
  assert (len p < 12 → score r ≤ 9) as H12.
  { intros H. pose proof (entropy_score_cap p 11 ltac:(lia)) as He.
    change (entropy_score (Num.Log2Val 11 94)) with 3 in He.
    revert Hl. repeat case_match; lia. }
  assert (len p < 16 → score r ≤ 11) as H16.
  { intros H. pose proof (entropy_score_cap p 15 ltac:(lia)) as He.
    change (entropy_score (Num.Log2Val 15 94)) with 4 in He.
    revert Hl. repeat case_match; lia. }
  assert (len p < 20 → score r ≤ 13) as H20.
  { intros H. pose proof (entropy_score_bounds
      (if 0 <? char_set_size p
       then Num.Log2Val (len p) (char_set_size p) else Num.IntVal 0)) as He.
    revert Hl. repeat case_match; lia. }
  repeat split; try done.
  - intros Hm. destruct (Z_lt_le_dec (len p) 8) as [Hlt|]; [|done].
    specialize (H8 Hlt). revert Hband. rewrite Hm.
    repeat case_match; try done; lia.
  - intros Hm. destruct (Z_lt_le_dec (len p) 12) as [Hlt|]; [|done].
    specialize (H12 Hlt). revert Hband. rewrite Hm.
    repeat case_match; try done; lia.
  - intros Hm. destruct (Z_lt_le_dec (len p) 16) as [Hlt|]; [|done].
    specialize (H16 Hlt). revert Hband. rewrite Hm.
    repeat case_match; try done; lia.
Qed.

End EvaluatorBands.

Section EvaluatorTiers.
Import Evaluator.

(** X3: the total is the sum of the three sub-scores, and the entropy
    score follows the entropy in bits: 5 from 100, 4 from 80, 3 from 60,
    2 from 40, 1 above 0 and 0 at 0. *)
Theorem entropy_score_by_bits (p : str) :
  ∃ r, evaluate_password_strength p = Ok r
    ∧ score r = length_score p + diversity_score p + entropy_score (entropy r)
    ∧ (0 <= Num.to_R (entropy r))%R
    ∧ ((100 <= Num.to_R (entropy r))%R → entropy_score (entropy r) = 5)
    ∧ ((80 <= Num.to_R (entropy r) < 100)%R → entropy_score (entropy r) = 4)
    ∧ ((60 <= Num.to_R (entropy r) < 80)%R → entropy_score (entropy r) = 3)
    ∧ ((40 <= Num.to_R (entropy r) < 60)%R → entropy_score (entropy r) = 2)
    ∧ ((0 < Num.to_R (entropy r) < 40)%R → entropy_score (entropy r) = 1)
    ∧ (Num.to_R (entropy r) = 0%R → entropy_score (entropy r) = 0).
Proof.
  destruct (evaluate_facts p) as (r & Hev & Hent & Hscore & _).
  exists r. split; [exact Hev|]. split; [exact Hscore|].
  assert (entropy_of p = Ok (entropy r)) as Hof by (by rewrite entropy_of_eq, Hent).
  split; [by apply (entropy_of_nonneg p)|].
  destruct (entropy_tests_exact p _ 100 Hof ltac:(lia)) as [H100 _].
  destruct (entropy_tests_exact p _ 80 Hof ltac:(lia)) as [H80 _].
  destruct (entropy_tests_exact p _ 60 Hof ltac:(lia)) as [H60 _].
  destruct (entropy_tests_exact p _ 40 Hof ltac:(lia)) as [H40 _].
  destruct (entropy_tests_exact p _ 0 Hof ltac:(lia)) as [_ H0].
  unfold entropy_score, entropy_block.
  destruct (Num.geb (entropy r) 100), (Num.geb (entropy r) 80),
    (Num.geb (entropy r) 60), (Num.geb (entropy r) 40), (Num.gtb (entropy r) 0);
    cbn [fst];
    repeat match goal with
           | H : true = true ↔ _ |- _ => pose proof (proj1 H eq_refl); clear H
           | H : false = true ↔ ?P |- _ =>
               assert (¬ P) by (intros HP; by apply H in HP); clear H
           end;
    repeat split; intros; try reflexivity; exfalso; lra.
Qed.

Lemma any_in_app_mono (alphabet p q : str) :
  any_in alphabet p = true → any_in alphabet (p ++ q) = true.
Proof. unfold any_in. rewrite existsb_app. by intros ->. Qed.

Lemma diversity_score_app_mono (p q : str) :
  diversity_score p ≤ diversity_score (p ++ q).
Proof.
  rewrite !diversity_score_eq.
  pose proof (any_in_app_mono ascii_lowercase p q).
  pose proof (any_in_app_mono ascii_uppercase p q).
  pose proof (any_in_app_mono digits p q).
  pose proof (any_in_app_mono punctuation p q).
  destruct (any_in ascii_lowercase p), (any_in ascii_uppercase p),
    (any_in digits p), (any_in punctuation p);
    repeat match goal with
           | H : true = true → _ |- _ => rewrite (H eq_refl); clear H
           end;
    repeat case_match; lia.
Qed.

Lemma char_set_size_app_mono (p q : str) :
  char_set_size p ≤ char_set_size (p ++ q).
Proof.
  unfold char_set_size. rewrite len_punctuation.
  pose proof (any_in_app_mono ascii_lowercase p q).
  pose proof (any_in_app_mono ascii_uppercase p q).
  pose proof (any_in_app_mono digits p q).
  pose proof (any_in_app_mono punctuation p q).
  destruct (any_in ascii_lowercase p), (any_in ascii_uppercase p),
    (any_in digits p), (any_in punctuation p);
    repeat match goal with
           | H : true = true → _ |- _ => rewrite (H eq_refl); clear H
           end;
    repeat case_match; lia.
Qed.

Lemma len_app {A} (p q : list A) : len (p ++ q) = len p + len q.
Proof. unfold len. rewrite length_app. lia. Qed.

(** The order of the characters does not matter to the report. *)
Lemma evaluate_rearranged (p p' : str) :
  p ≡ₚ p' → evaluate_password_strength p = evaluate_password_strength p'.
Proof.
  intros H. rewrite !evaluate_eq, !entropy_of_eq.
  rewrite (char_set_size_Permutation p p' H), (len_Permutation p p' H).
  rewrite (length_score_len p p'), (length_notes_len p p')
    by (by apply len_Permutation).
  unfold diversity_score, diversity_notes.
  by rewrite (diversity_block_Permutation p p' _ H).
Qed.

(** X4: more characters never lower the score: a password that holds all
    the characters of another, in any order, scores at least as much. *)
Theorem score_never_drops (p q p' : str) :
  p' ≡ₚ p ++ q →
  ∃ r r', evaluate_password_strength p = Ok r
    ∧ evaluate_password_strength p' = Ok r'
    ∧ score r ≤ score r'.
Proof.
  intros Hperm.
  destruct (evaluate_facts p) as (r & Hev & Hent & Hscore & _).
  destruct (evaluate_facts (p ++ q)) as (r' & Hev' & Hent' & Hscore' & _).
  exists r, r'. split; [exact Hev|].
  split; [by rewrite (evaluate_rearranged p' (p ++ q) Hperm)|].
  rewrite Hscore, Hscore', Hent, Hent'.
  pose proof (diversity_score_app_mono p q) as Hd.
  pose proof (char_set_size_app_mono p q) as Hc.
  pose proof (len_app p q) as Hl.
  assert (0 ≤ len q) as Hq by (unfold len; lia).
  assert (length_score p ≤ length_score (p ++ q)) as Hls.
  { rewrite !length_score_tiers. repeat case_match; lia. }
  assert (entropy_score (if 0 <? char_set_size p
                         then Num.Log2Val (len p) (char_set_size p)
                         else Num.IntVal 0)
          ≤ entropy_score (if 0 <? char_set_size (p ++ q)
                           then Num.Log2Val (len (p ++ q)) (char_set_size (p ++ q))
                           else Num.IntVal 0)) as Hes.
  { destruct (Z.ltb_spec 0 (char_set_size p)) as [Hpos|Hz].
    - destruct (Z.ltb_spec 0 (char_set_size (p ++ q))); [|lia].
      apply entropy_score_mono.
      + pose proof (char_set_size_pos_len p Hpos). lia.
      + destruct (char_set_size_range p); lia.
    - change (entropy_score (Num.IntVal 0)) with 0. apply entropy_score_bounds. }
  lia.
Qed.

Lemma score_never_drops_witness :
  lit "x1pass!" ≡ₚ lit "pass" ++ lit "1!x"
  ∧ ∃ r r', evaluate_password_strength (lit "pass") = Ok r
      ∧ evaluate_password_strength (lit "x1pass!") = Ok r'
      ∧ score r ≤ score r'.
Proof.
  assert (lit "x1pass!" ≡ₚ lit "pass" ++ lit "1!x") as H.
  { apply (bool_decide_unpack _). by vm_compute. }
  split; [exact H|]. exact (score_never_drops _ _ _ H).
Defined.

(** X5: the feedback is one note on the length, then one note for each
    class that is missing, then one note on the entropy unless the password
    has no character of any class; so it is never empty. *)
Theorem feedback_shape (p : str) :
  ∃ r, evaluate_password_strength p = Ok r
    ∧ feedback r = length_notes p ++ diversity_notes p ++ entropy_notes (entropy r)
    ∧ len (length_notes p) = 1
    ∧ len (diversity_notes p) = 4 - diversity_score p
    ∧ len (entropy_notes (entropy r)) = (if diversity_score p =? 0 then 0 else 1)
    ∧ len (feedback r)
      = 5 - diversity_score p + (if diversity_score p =? 0 then 0 else 1)
    ∧ feedback r ≠ [].
Proof.
  destruct (evaluate_facts p) as (r & Hev & Hent & _ & _ & _ & _ & Hfb & _).
  exists r. split; [exact Hev|]. split; [exact Hfb|].
  assert (len (length_notes p) = 1) as H1.
  { unfold length_notes, length_block. by repeat case_match. }
  assert (len (diversity_notes p) = 4 - diversity_score p) as H2.
  { unfold diversity_notes, diversity_score, diversity_block.
    rewrite !class_test_eq. cbn [fst snd]. repeat case_match; reflexivity. }
  assert (len (entropy_notes (entropy r))
          = if diversity_score p =? 0 then 0 else 1) as H3.
  { rewrite Hent, diversity_score_eq. unfold char_set_size.
    rewrite len_punctuation.
    destruct p as [|c p].
    { by vm_compute. }
    assert (1 ≤ len (c :: p)) as Hlen by (unfold len; simpl; lia).
    assert (∀ x, 10 ≤ x →
              len (entropy_notes (Num.Log2Val (len (c :: p)) x)) = 1) as Hnote.
    { intros x Hx.
      assert (1 < x ^ len (c :: p)).
      { apply Z.lt_le_trans with (x ^ 1); [lia|].
        apply Z.pow_le_mono_r; lia. }
      unfold entropy_notes, entropy_block, Num.geb, Num.gtb.
      repeat match goal with
             | |- context [?a <=? ?b] => destruct (Z.leb_spec a b)
             | |- context [?a <? ?b] => destruct (Z.ltb_spec a b)
             end; cbn [snd]; try reflexivity. lia. }
    destruct (any_in ascii_lowercase (c :: p)), (any_in ascii_uppercase (c :: p)),
      (any_in digits (c :: p)), (any_in punctuation (c :: p));
      cbn [Z.add Z.ltb Z.compare Z.eqb Pos.add Pos.succ];
      first [ by apply Hnote | reflexivity ]. }
  split; [exact H1|]. split; [exact H2|]. split; [exact H3|].
  assert (len (feedback r)
          = 5 - diversity_score p + (if diversity_score p =? 0 then 0 else 1)) as H4.
  { rewrite Hfb, !len_app, H1, H2, H3. lia. }
  split; [exact H4|].
  intros Hnil. rewrite Hnil in H4. pose proof (diversity_score_bounds p).
  revert H4. unfold len. simpl. case_match; lia.
Qed.

(** X6: a password gets the full 14 points exactly when it has at least 20
    characters and a character of each of the four classes. *)
Theorem full_score_iff (p : str) :
  ∃ r, evaluate_password_strength p = Ok r
    ∧ (score r = 14 ↔
       20 ≤ len p
       ∧ any_in ascii_lowercase p = true ∧ any_in ascii_uppercase p = true
       ∧ any_in digits p = true ∧ any_in punctuation p = true).
Proof.
  destruct (evaluate_facts p) as (r & Hev & Hent & Hscore & _).
  exists r. split; [exact Hev|].
  pose proof (length_score_bounds p) as Hl.
  pose proof (diversity_score_bounds p) as Hd.
  pose proof (entropy_score_bounds (entropy r)) as He.
  rewrite Hscore. split.
  - intros H14.
    assert (length_score p = 5) as Hl5 by lia.
    assert (diversity_score p = 4) as Hd4 by lia.
    split.
    + rewrite length_score_tiers in Hl5. revert Hl5. repeat case_match; lia.
    + rewrite diversity_score_eq in Hd4. revert Hd4.
      destruct (any_in ascii_lowercase p), (any_in ascii_uppercase p),
        (any_in digits p), (any_in punctuation p); intros; try done; lia.
  - intros (Hlen & Hlo & Hup & Hdi & Hpu).
    assert (length_score p = 5) as Hl5.
    { rewrite length_score_tiers. by destruct (Z.leb_spec 20 (len p)); [|lia]. }
    assert (diversity_score p = 4) as Hd4.
    { by rewrite diversity_score_eq, Hlo, Hup, Hdi, Hpu. }
    assert (char_set_size p = 94) as Hc.
    { unfold char_set_size. by rewrite Hlo, Hup, Hdi, Hpu. }
    assert (5 ≤ entropy_score (entropy r)) as He5.
    { rewrite Hent, Hc. cbn [Z.ltb Z.compare].
      change 5 with (entropy_score (Num.Log2Val 20 94)) at 1.
      apply entropy_score_mono; lia. }
    lia.
Qed.

End EvaluatorTiers.

(** * How far the generator moves along the tape *)

Section GeneratorTrace.
Import Rand Generator Trace.

Lemma returns_conj {A} (m : M A) (w : world) (P Q : A → world → Prop) :
  returns m w P → returns m w Q → returns m w (λ a w', P a w' ∧ Q a w').
Proof.
  intros (a & w' & Hm & HP) (a' & w'' & Hm' & HQ).
  rewrite Hm in Hm'. injection Hm' as <- <-. by exists a, w'.
Qed.

Lemma returns_inv {A} (m : M A) (w w' : world) (a : A) (Q : A → world → Prop) :
  returns m w Q → m w = (Ok a, w') → Q a w'.
Proof.
  intros (a' & w'' & Hm & HQ) Hm'. rewrite Hm in Hm'. by injection Hm' as <- <-.
Qed.

Lemma advanced_refl (w : world) : advanced 0 w w.
Proof. unfold advanced. repeat split; try done; lia. Qed.

Lemma advanced_trans (j k : nat) (w1 w2 w3 : world) :
  advanced j w1 w2 → advanced k w2 w3 → advanced (j + k) w1 w3.
Proof.
  intros (Ht & Hc & Ho) (Ht' & Hc' & Ho'). unfold advanced.
  repeat split; try congruence. lia.
Qed.

Lemma randbelow_advanced (n : nat) (w : world) :
  returns (randbelow n) w (λ _ w', advanced 1 w w').
Proof.
  eexists _, _. split; [reflexivity|].
  unfold advanced. cbn [tape cursor stdout]. repeat split; lia.
Qed.

Lemma choice_advanced {A} (seq : list A) (w : world) :
  seq ≠ [] → returns (choice seq) w (λ _ w', advanced 1 w w').
Proof.
  intros Hne. unfold choice.
  destruct (decide (length seq = 0%nat)) as [Hz|Hnz].
  { by apply nil_length_inv in Hz. }
  eapply returns_bind.
  { apply returns_conj; [apply randbelow_returns; lia|apply randbelow_advanced]. }
  intros k w' [[Hk _] Hadv]. cbn beta.
  destruct (lookup_lt_is_Some_2 seq k Hk) as [c Hc].
  apply returns_lift with c; [unfold getitem; by rewrite Hc|done].
Qed.

Lemma shuffle_step_advanced {A} (x : list A) (i : nat) (w : world) :
  (i < length x)%nat →
  returns (shuffle_step x i) w (λ x' w', length x' = length x ∧ advanced 1 w w').
Proof.
  intros Hi. unfold shuffle_step.
  eapply returns_bind.
  { apply returns_conj; [apply randbelow_returns; lia|apply randbelow_advanced]. }
  intros j w' [[Hj _] Hadv]. cbn beta.
  destruct (swap_items_Ok x i j) as (x' & Hswap & Hperm); [lia..|].
  apply returns_lift with x'; [done|]. split; [by rewrite Hperm|done].
Qed.

Lemma shuffle_loop_advanced {A} (idxs : list nat) (x : list A) (w : world) :
  Forall (λ i, (i < length x)%nat) idxs →
  returns (for_each shuffle_step idxs x) w
    (λ x' w', length x' = length x ∧ advanced (length idxs) w w').
Proof.
  revert x w. induction idxs as [|i idxs IH]; intros x w Hidx.
  - apply returns_ret. split; [done|apply advanced_refl].
  - apply Forall_cons in Hidx as [Hi Hidx]. cbn [for_each].
    eapply returns_bind; [by apply shuffle_step_advanced|].
    intros x1 w1 [Hlen Hadv]. cbn beta.
    eapply returns_mono.
    + apply IH. eapply Forall_impl; [exact Hidx|].
      intros k Hk. cbn beta in *. by rewrite Hlen.
    + intros x2 w2 [Hlen2 Hadv2]. split; [congruence|].
      exact (advanced_trans 1 _ _ _ _ Hadv Hadv2).
Qed.

(** The shuffle of [n] items uses [n - 1] draws. *)
Lemma shuffle_advanced {A} (x : list A) (w : world) :
  returns (shuffle x) w (λ _ w', advanced (length x - 1) w w').
Proof.
  eapply returns_mono.
  - apply shuffle_loop_advanced. apply Forall_forall. intros i Hi.
    unfold reversed_range_from_1, len in Hi.
    apply elem_of_reverse, elem_of_seq in Hi. lia.
  - intros x' w' [_ Hadv]. cbn beta.
    unfold reversed_range_from_1, len in Hadv.
    rewrite length_reverse, length_seq in Hadv.
    by replace (Z.to_nat (Z.of_nat (length x) - 1)) with (length x - 1)%nat
      in Hadv by lia.
Qed.

Lemma collect_choice_advanced {A I} (seq : list A) (idxs : list I) (w : world) :
  seq ≠ [] →
  returns (collect (choice seq) idxs) w (λ _ w', advanced (length idxs) w w').
Proof.
  intros Hne. revert w. induction idxs as [|i idxs IH]; intros w.
  - apply returns_ret. apply advanced_refl.
  - cbn [collect].
    eapply returns_bind; [by apply choice_advanced|].
    intros c w1 Hadv1. cbn beta.
    eapply returns_bind; [apply IH|].
    intros l w2 Hadv2. cbn beta. apply returns_ret.
    exact (advanced_trans 1 _ _ _ _ Hadv1 Hadv2).
Qed.

Lemma append_choice_if_advanced (flag : bool) (alphabet password : str) (w : world) :
  (flag = true → alphabet ≠ []) →
  returns (append_choice_if flag alphabet password) w
    (λ _ w', advanced (if flag then 1 else 0) w w').
Proof.
  intros Hne. unfold append_choice_if. destruct flag.
  - eapply returns_bind; [apply choice_advanced; auto|].
    intros c w' Hadv. cbn beta. by apply returns_ret.
  - apply returns_ret. apply advanced_refl.
Qed.

(** The mandatory phase uses one draw for each character it returns. *)
Lemma mandatory_draws_advanced (u n s : bool) (w : world) :
  returns (mandatory_draws u n s) w
    (λ _ w', advanced (1 + (if u then 1 else 0) + (if n then 1 else 0)
                       + (if s then 1 else 0)) w w').
Proof.
  unfold mandatory_draws.
  eapply returns_bind; [apply (choice_advanced lowercase_letters); done|].
  intros c0 w0 H0. cbn beta zeta.
  eapply returns_bind.
  { apply append_choice_if_advanced. by intros ->. }
  intros p1 w1 H1. cbn beta.
  eapply returns_bind.
  { apply append_choice_if_advanced. by intros ->. }
  intros p2 w2 H2. cbn beta.
  eapply returns_mono.
  { apply append_choice_if_advanced. by intros ->. }
  intros p3 w3 H3. cbn beta.
  pose proof (advanced_trans _ _ _ _ _ (advanced_trans _ _ _ _ _
                (advanced_trans _ _ _ _ _ H0 H1) H2) H3) as H.
  by rewrite <- !Nat.add_assoc in *.
Qed.

Lemma fill_advanced (pool : str) (k : Z) (password : str) (w : world) :
  pool ≠ [] →
  returns (fill pool k password) w (λ _ w', advanced (Z.to_nat k) w w').
Proof.
  intros Hne. unfold fill.
  eapply returns_bind; [by apply collect_choice_advanced|].
  intros rest w' Hadv. cbn beta. apply returns_ret.
  unfold range in Hadv. by rewrite length_seq in Hadv.
Qed.

Lemma ensure_min_length_world (length l : Z) (w w1 : world) :
  ensure_min_length length w = (Ok l, w1) →
  tape w1 = tape w ∧ cursor w1 = cursor w.
Proof.
  unfold ensure_min_length. destruct (length <? MIN_LENGTH).
  - cbv [mbind M_bind print mret M_ret]. by intros [= <- <-].
  - by intros [= <- <-].
Qed.

(** No flag brings in a character of a class that is switched off. *)
Lemma pool_classes (u n s : bool) :
  Forall (λ c, (contains ascii_uppercase c = true → u = true)
               ∧ (contains Py.digits c = true → n = true)
               ∧ (contains punctuation c = true → s = true))
         (all_characters u n s).
Proof. destruct u, n, s; apply (bool_decide_unpack _); by vm_compute. Qed.

Lemma any_in_false (alphabet p : str) :
  Forall (λ c, contains alphabet c = false) p → any_in alphabet p = false.
Proof.
  induction 1 as [|c p Hc _ IH]; [done|].
  unfold any_in in *. simpl. by rewrite Hc, IH.
Qed.

(** One run of [generate_password], with the world it ends in. *)
Lemma generate_password_run (length : Z) (u n s : bool) (w : world) :
  ∃ pw,
    generate_password length u n s w =
    (Ok pw,
     {| tape := tape w;
        cursor := cursor w + Z.to_nat (2 * Z.max length MIN_LENGTH - 1);
        stdout := if length <? MIN_LENGTH
                  then stdout w ++ [length_warning] else stdout w |})
    ∧ len pw = Z.max length MIN_LENGTH
    ∧ Spec.covers u n s pw
    ∧ Forall (λ c, c ∈ all_characters u n s) pw.
Proof.
  destruct (generate_password_phases length u n s w)
    as (w1 & m & w2 & filler & w3 & pw & w4
        & Hmin & Hmand & Hfill & Hshuf & Hgen & Hout & Hm & Hcov & Hpool
        & Hfl & Hperm).
  exists pw.
  destruct (ensure_min_length_world _ _ _ _ Hmin) as [Ht1 Hc1].
  pose proof (returns_inv _ _ _ _ _ (mandatory_draws_advanced u n s w1) Hmand)
    as (Ht2 & Hc2 & _).
  pose proof (returns_inv _ _ _ _ _
                (fill_advanced _ _ m w2 (all_characters_nonempty u n s)) Hfill)
    as (Ht3 & Hc3 & _).
  pose proof (returns_inv _ _ _ _ _ (shuffle_advanced (m ++ filler) w3) Hshuf)
    as (Ht4 & Hc4 & _).
  assert (len pw = Z.max length MIN_LENGTH) as Hlen.
  { rewrite (len_Permutation _ _ Hperm).
    unfold remaining_length, MIN_LENGTH, len in *. rewrite length_app. lia. }
  split; [|split; [exact Hlen|split]].
  - rewrite Hgen. f_equal. destruct w4 as [t4 c4 o4]. cbn in *.
    f_equal; [congruence| |exact Hout].
    rewrite Hc4, Hc3, Hc2, Hc1, length_app.
    unfold remaining_length, MIN_LENGTH, len in *.
    destruct u, n, s; cbn [Z.b2z] in Hm; lia.
  - by apply (covers_fill_shuffle u n s m filler).
  - by rewrite Hperm.
Qed.

End GeneratorTrace.

(** * More about the generator *)

Section GeneratorMore.
Import Rand Generator Evaluator.

(** Which classes a generated password has: lowercase, and each other
    class exactly when its flag is set. *)
Lemma generated_profile (u n s : bool) (pw : str) :
  Spec.covers u n s pw → Forall (λ c, c ∈ all_characters u n s) pw →
  any_in ascii_lowercase pw = true
  ∧ any_in ascii_uppercase pw = u
  ∧ any_in Py.digits pw = n
  ∧ any_in punctuation pw = s.
Proof.
  intros (Hl & Hu & Hn & Hs) Hpool.
  pose proof (pool_classes u n s) as Hcls. rewrite Forall_forall in Hcls.
  rewrite (any_in_present Spec.lowercase), (any_in_present Spec.uppercase),
    (any_in_present Spec.digit), (any_in_present Spec.symbol) in *.
  split; [exact Hl|].
  assert (∀ (c : Spec.CharacterClass) (flag : bool),
            (flag = true → Spec.present c pw = true) →
            (∀ ch, ch ∈ all_characters u n s →
                   contains (Spec.alphabet c) ch = true → flag = true) →
            Spec.present c pw = flag) as Hflag.
  { intros c flag Hon Hoff. destruct flag; [by apply Hon|].
    rewrite <- any_in_present. apply any_in_false.
    eapply Forall_impl; [exact Hpool|]. intros ch Hch. cbn beta.
    apply not_true_is_false. intros Hc. by specialize (Hoff ch Hch Hc). }
  repeat split; apply Hflag; try done; intros ch Hch Hc;
    destruct (Hcls ch Hch) as (H1 & H2 & H3); auto.
Qed.

(** The report depends on the password only through its length and the
    classes it has. *)
Lemma evaluate_same_profile (p p' : str) :
  len p = len p' →
  any_in ascii_lowercase p = any_in ascii_lowercase p' →
  any_in ascii_uppercase p = any_in ascii_uppercase p' →
  any_in Py.digits p = any_in Py.digits p' →
  any_in punctuation p = any_in punctuation p' →
  evaluate_password_strength p = evaluate_password_strength p'.
Proof.
  intros Hlen Hl Hu Hd Hs. rewrite !evaluate_eq, !entropy_of_eq.
  rewrite (length_score_len p p' Hlen), (length_notes_len p p' Hlen), Hlen.
  unfold diversity_score, diversity_notes, diversity_block, class_test,
    char_set_size.
  by rewrite Hl, Hu, Hd, Hs.
Qed.

(** X7: whatever the length and the flags, every character of the
    password comes from the enabled sets: a class that is switched off
    never occurs in it. *)
Theorem generate_only_enabled_classes
    (length : Z) (u n s : bool) (w : world) :
  ∃ pw w', generate_password length u n s w = (Ok pw, w')
    ∧ Forall (λ c, c ∈ all_characters u n s) pw
    ∧ any_in ascii_uppercase pw = u
    ∧ any_in Py.digits pw = n
    ∧ any_in punctuation pw = s.
Proof.
  destruct (generate_password_run length u n s w) as (pw & Hgen & _ & Hcov & Hpool).
  eexists pw, _. split; [exact Hgen|]. split; [exact Hpool|].
  by destruct (generated_profile u n s pw Hcov Hpool) as (_ & ? & ? & ?).
Qed.

(** X8: a call uses exactly [2 * L - 1] raw draws, where [L] is the
    length after clamping (one for each character, and [L - 1] for the
    shuffle), leaves the tape as it was, and prints nothing but the
    warning for a length below 8. *)
Theorem generate_uses_draws (length : Z) (u n s : bool) (w : world) :
  ∃ pw,
    generate_password length u n s w =
    (Ok pw,
     {| tape := tape w;
        cursor := cursor w + Z.to_nat (2 * Z.max length 8 - 1);
        stdout := if length <? 8 then stdout w ++ [length_warning]
                  else stdout w |}).
Proof.
  destruct (generate_password_run length u n s w) as (pw & Hgen & _).
  by exists pw.
Qed.

(** X9: the report of a generated password does not depend on the draws:
    two runs with the same length and flags get the same report, with
    diversity score 1 plus the number of flags set, the alphabet size of
    the enabled sets, and a score of at least 3. *)
Theorem generated_report_fixed (length : Z) (u n s : bool) (w w' : world) :
  ∃ pw pw' r,
    (generate_password length u n s w).1 = Ok pw
    ∧ (generate_password length u n s w').1 = Ok pw'
    ∧ evaluate_password_strength pw = Ok r
    ∧ evaluate_password_strength pw' = Ok r
    ∧ diversity_score pw = 1 + Z.b2z u + Z.b2z n + Z.b2z s
    ∧ char_set_size pw = 26 + 26 * Z.b2z u + 10 * Z.b2z n + 32 * Z.b2z s
    ∧ 1 ≤ length_score pw
    ∧ 3 ≤ score r.
Proof.
  destruct (generate_password_run length u n s w) as (pw & Hgen & Hlen & Hcov & Hpool).
  destruct (generate_password_run length u n s w')
    as (pw' & Hgen' & Hlen' & Hcov' & Hpool').
  destruct (generated_profile u n s pw Hcov Hpool) as (Hl & Hu & Hn & Hs).
  destruct (generated_profile u n s pw' Hcov' Hpool') as (Hl' & Hu' & Hn' & Hs').
  destruct (evaluate_facts pw) as (r & Hev & Hent & Hscore & _).
  exists pw, pw', r.
  split; [by rewrite Hgen|]. split; [by rewrite Hgen'|]. split; [exact Hev|].
  split.
  { rewrite <- Hev. symmetry. apply evaluate_same_profile; congruence. }
  assert (diversity_score pw = 1 + Z.b2z u + Z.b2z n + Z.b2z s) as Hd.
  { rewrite diversity_score_eq, Hl, Hu, Hn, Hs. by destruct u, n, s. }
  assert (char_set_size pw = 26 + 26 * Z.b2z u + 10 * Z.b2z n + 32 * Z.b2z s) as Hc.
  { unfold char_set_size. rewrite Hl, Hu, Hn, Hs, len_punctuation.
    by destruct u, n, s. }
  assert (1 ≤ length_score pw) as Hls.
  { rewrite length_score_tiers. unfold MIN_LENGTH in Hlen.
    repeat case_match; lia. }
  repeat split; try done.
  assert (1 ≤ entropy_score (entropy r)) as Hes.
  { rewrite Hent. destruct (Z.ltb_spec 0 (char_set_size pw)) as [_|Hz].
    - change 1 with (entropy_score (Num.Log2Val 8 26)) at 1.
      apply entropy_score_mono.
      + unfold MIN_LENGTH in Hlen. lia.
      + rewrite Hc. destruct u, n, s; cbn [Z.b2z]; lia.
    - rewrite Hc in Hz. destruct u, n, s; cbn [Z.b2z] in Hz; lia. }
  assert (1 ≤ diversity_score pw) by (rewrite Hd; destruct u, n, s; cbn; lia).
  lia.
Qed.

(** The entropy score of [L] characters over all 94. *)
Lemma entropy_score_between (lo hi L v : Z) :
  entropy_score (Num.Log2Val lo 94) = v →
  entropy_score (Num.Log2Val hi 94) = v →
  0 ≤ lo ≤ L → L ≤ hi →
  entropy_score (Num.Log2Val L 94) = v.
Proof.
  intros Hlo Hhi H1 H2.
  pose proof (entropy_score_mono lo 94 L 94 ltac:(lia) ltac:(lia)).
  pose proof (entropy_score_mono L 94 hi 94 ltac:(lia) ltac:(lia)).
  lia.
Qed.

(** X10: with all three flags set, the score and the rating of the
    generated password are fixed by the length [L] after clamping: 7 for 8
    or 9 characters, 9 for 10 or 11, 10 for 12, 11 for 13 to 15, 13 for 16
    to 19 and 14 from 20; Moderate below 12, Strong from 12 and Excellent
    from 16. *)
Theorem all_classes_report (length : Z) (w : world) :
  ∃ pw w' r,
    generate_password length true true true w = (Ok pw, w')
    ∧ evaluate_password_strength pw = Ok r
    ∧ score r =
      (if 20 <=? Z.max length 8 then 14
       else if 16 <=? Z.max length 8 then 13
       else if 13 <=? Z.max length 8 then 11
       else if 12 <=? Z.max length 8 then 10
       else if 10 <=? Z.max length 8 then 9
       else 7)
    ∧ strength r =
      (if 16 <=? Z.max length 8 then "Excellent"%string
       else if 12 <=? Z.max length 8 then "Strong"%string
       else "Moderate"%string).
Proof.
  destruct (generate_password_run length true true true w)
    as (pw & Hgen & Hlen & Hcov & Hpool).
  destruct (generated_profile _ _ _ pw Hcov Hpool) as (Hl & Hu & Hn & Hs).
  destruct (evaluate_facts pw)
    as (r & Hev & Hent & Hscore & _ & _ & _ & _ & _ & Hband).
  eexists pw, _, r. split; [exact Hgen|]. split; [exact Hev|].
  unfold MIN_LENGTH in Hlen.
  assert (char_set_size pw = 94) as Hc.
  { unfold char_set_size. by rewrite Hl, Hu, Hn, Hs. }
  assert (diversity_score pw = 4) as Hd.
  { by rewrite diversity_score_eq, Hl, Hu, Hn, Hs. }
  rewrite Hent, Hc, Hd, Hlen, length_score_tiers, Hlen in Hscore.
  cbn [Z.ltb Z.compare] in Hscore.
  set (L := Z.max length 8) in *.
  assert (8 ≤ L) as HL by (unfold L; lia).
  assert (score r =
          (if 20 <=? L then 14 else if 16 <=? L then 13
           else if 13 <=? L then 11 else if 12 <=? L then 10
           else if 10 <=? L then 9 else 7)) as Hsc.
  { rewrite Hscore.
    destruct (Z.leb_spec 20 L).
    { pose proof (entropy_score_bounds (Num.Log2Val L 94)).
      pose proof (entropy_score_mono 20 94 L 94 ltac:(lia) ltac:(lia)) as H5.
      change (entropy_score (Num.Log2Val 20 94)) with 5 in H5. lia. }
    destruct (Z.leb_spec 16 L).
    { by rewrite (entropy_score_between 16 19 L 5) by (done || lia). }
    destruct (Z.leb_spec 13 L).
    { rewrite (entropy_score_between 13 15 L 4) by (done || lia).
      by destruct (Z.leb_spec 12 L); [|lia]. }
    destruct (Z.leb_spec 12 L).
    { by rewrite (entropy_score_between 12 12 L 3) by (done || lia). }
    destruct (Z.leb_spec 10 L).
    { by rewrite (entropy_score_between 10 11 L 3) by (done || lia). }
    rewrite (entropy_score_between 8 9 L 2) by (done || lia).
    by destruct (Z.leb_spec 8 L); [|lia]. }
  split; [exact Hsc|].
  rewrite Hsc in Hband.
  assert (strength r = (strength r, color r).1) as -> by done.
  rewrite Hband.
  destruct (Z.leb_spec 20 L), (Z.leb_spec 16 L), (Z.leb_spec 13 L),
    (Z.leb_spec 12 L), (Z.leb_spec 10 L); try lia; reflexivity.
Qed.

End GeneratorMore.

(** * The generation loop of [main] *)

Section MainLoop.
Import Rand Generator.

Lemma generate_loop (prefs : Main.preferences) (idxs : list nat)
    (acc : list str) (w : world) :
  ∃ new,
    for_each (Main.generate_one prefs) idxs acc w =
    (Ok (acc ++ new),
     {| tape := tape w;
        cursor := cursor w
                  + length idxs * Z.to_nat (2 * Z.max (Main.length prefs) 8 - 1);
        stdout := stdout w
                  ++ (if Main.length prefs <? 8
                      then replicate (length idxs) length_warning else []) |})
    ∧ length new = length idxs
    ∧ Forall (λ pw, len pw = Z.max (Main.length prefs) 8
                    ∧ Spec.covers (Main.use_uppercase prefs)
                        (Main.use_numbers prefs) (Main.use_symbols prefs) pw)
             new.
Proof.
  revert acc w. induction idxs as [|i idxs IH]; intros acc w.
  - exists []. split; [|by split].
    cbn [for_each length]. rewrite app_nil_r. unfold mret, M_ret. f_equal.
    destruct w as [t c o]. cbn. f_equal; [lia|].
    by destruct (Main.length prefs <? 8); rewrite app_nil_r.
  - destruct (generate_password_run (Main.length prefs) (Main.use_uppercase prefs)
                (Main.use_numbers prefs) (Main.use_symbols prefs) w)
      as (pw & Hgen & Hlen & Hcov & _).
    set (w1 := {| tape := tape w;
                  cursor := cursor w
                    + Z.to_nat (2 * Z.max (Main.length prefs) MIN_LENGTH - 1);
                  stdout := if Main.length prefs <? MIN_LENGTH
                            then stdout w ++ [length_warning] else stdout w |})
      in Hgen.
    destruct (IH (acc ++ [pw]) w1) as (new & Hloop & Hnew & Hall).
    exists (pw :: new). split; [|split].
    + cbn [for_each].
      assert (Main.generate_one prefs acc i w = (Ok (acc ++ [pw]), w1)) as Hone.
      { unfold Main.generate_one. by rewrite (bind_Ok _ _ _ _ _ Hgen). }
      rewrite (bind_Ok _ _ _ _ _ Hone), Hloop, <- app_assoc. cbn [app].
      f_equal. unfold w1, MIN_LENGTH. cbn [tape cursor stdout length].
      f_equal; [lia|].
      destruct (Main.length prefs <? 8); [|done].
      by rewrite <- app_assoc.
    + cbn [length]. by rewrite Hnew.
    + constructor; [|exact Hall]. by unfold MIN_LENGTH in Hlen.
Qed.

(** X11: the loop of [main] returns as many passwords as were asked for
    (none for a count below 1), each of the clamped length and with every
    enabled class; it uses [2 * L - 1] draws for each, and for a length
    below 8 it prints the warning once for each password. *)
Theorem main_generates_all (prefs : Main.preferences) (w : world) :
  ∃ passwords,
    Main.generate_passwords prefs w =
    (Ok passwords,
     {| tape := tape w;
        cursor := cursor w
                  + Z.to_nat (Main.num_passwords prefs)
                    * Z.to_nat (2 * Z.max (Main.length prefs) 8 - 1);
        stdout := stdout w
                  ++ (if Main.length prefs <? 8
                      then replicate (Z.to_nat (Main.num_passwords prefs))
                             length_warning
                      else []) |})
    ∧ len passwords = Z.max (Main.num_passwords prefs) 0
    ∧ Forall (λ pw, len pw = Z.max (Main.length prefs) 8
                    ∧ Spec.covers (Main.use_uppercase prefs)
                        (Main.use_numbers prefs) (Main.use_symbols prefs) pw)
             passwords.
Proof.
  destruct (generate_loop prefs (range (Main.num_passwords prefs)) [] w)
    as (new & Hloop & Hlen & Hall).
  unfold range in Hlen, Hloop. rewrite length_seq in Hlen, Hloop.
  exists new. split; [exact Hloop|]. split; [|exact Hall].
  unfold len. rewrite Hlen. lia.
Qed.

End MainLoop.

(** * The strength meter *)

Section Meter.
Import Evaluator Display.

(** For each score, the width the code computes on floats is the whole
    part of [15 * score / 7], and the percentage it prints is
    [1000 * score / 14] tenths, rounded to the nearest. *)
Lemma meter_of_score (s : Z) :
  0 ≤ s ≤ 14 →
  int_of_float (float_of_int s / float_of_int 14 * 100
                / float_of_int 100 * float_of_int meter_width)%float
  = Done (15 * s / 7)
  ∧ format_float_1f (float_of_int s / float_of_int 14 * 100)%float
    = lit (str_of_int ((1000 * s + 7) / 14 / 10)) ++ lit "."
      ++ lit (str_of_int (((1000 * s + 7) / 14) mod 10)).
Proof.
  intros Hs.
  assert (s = 0 ∨ s = 1 ∨ s = 2 ∨ s = 3 ∨ s = 4 ∨ s = 5 ∨ s = 6 ∨ s = 7
          ∨ s = 8 ∨ s = 9 ∨ s = 10 ∨ s = 11 ∨ s = 12 ∨ s = 13 ∨ s = 14)
    as Hcases by lia.
  repeat (destruct Hcases as [->|Hcases]); try subst s; by vm_compute.
Qed.

Lemma len_repeat_str (s : str) (n : Z) :
  len (repeat_str s n) = len s * Z.max n 0.
Proof.
  unfold repeat_str, len.
  assert (∀ k : nat, length (mjoin (replicate k s)) = (k * length s)%nat) as H.
  { induction k as [|k IH]; [done|].
    change (mjoin (replicate (S k) s)) with (s ++ mjoin (replicate k s)).
    rewrite length_app, IH. lia. }
  rewrite H. lia.
Qed.


(** X13: for the report of any password the bar has
    [floor (15 * score / 7)] filled cells and 30 cells in all, so it is
    full only at 14 points; the percentage shown is [1000 * score / 14]
    tenths rounded to the nearest. *)
Theorem meter_follows_score (p : str) :
  ∃ r, evaluate_password_strength p = Ok r
    ∧ filled_width r = Done (15 * score r / 7)
    ∧ 0 ≤ 15 * score r / 7 ≤ 30
    ∧ (15 * score r / 7 = 30 ↔ score r = 14)
    ∧ len (repeat_str filled_cell (15 * score r / 7))
      + len (repeat_str empty_cell (meter_width - 15 * score r / 7))
      = 3 * 30
    ∧ format_float_1f (percentage r)
      = lit (str_of_int ((1000 * score r + 7) / 14 / 10)) ++ lit "."
        ++ lit (str_of_int (((1000 * score r + 7) / 14) mod 10)).
Proof.
  destruct (evaluate_facts p) as (r & Hev & _ & _ & Hs & _ & Hpct & _).
  destruct (meter_of_score (score r) Hs) as [Hw Hfmt].
  exists r. split; [exact Hev|].
  unfold filled_width. rewrite Hpct.
  split; [exact Hw|].
  assert (0 ≤ 15 * score r / 7 ≤ 30) as Hrange.
  { split; [apply Z.div_pos; lia|].
    apply Z.div_le_upper_bound; lia. }
  split; [exact Hrange|]. split.
  { split; [|by intros ->].
    intros H30. destruct (Z.eq_dec (score r) 14) as [|Hne]; [done|].
    assert (15 * score r / 7 ≤ 29); [|lia].
    assert (15 * score r / 7 < 30); [|lia].
    apply Z.div_lt_upper_bound; lia. }
  split; [|exact Hfmt].
  rewrite !len_repeat_str. unfold meter_width.
  change (len filled_cell) with 3. change (len empty_cell) with 3. lia.
Qed.

(** For any width, the bar has [max f 0] filled cells and
    [max (30 - f) 0] empty ones, each of three characters: never fewer
    than 30 cells, and more when the width is outside 0..30. *)
Lemma meter_cells (strength : report) (f : Z) :
  len (meter strength f)
  = len (lit (color strength)) + 3 * Z.max f 0
    + len (lit (reset strength)) + 3 * Z.max (30 - f) 0
  ∧ 3 * 30 ≤ 3 * Z.max f 0 + 3 * Z.max (30 - f) 0.
Proof.
  unfold meter. rewrite !len_app, !len_repeat_str. unfold meter_width.
  change (len filled_cell) with 3. change (len empty_cell) with 3. lia.
Qed.

End Meter.
